(** * coplanar_magnetic_atoms: plane clustering and sign assignment

    A shallow embedding of [scripts/magnetism/coplanar_magnetic_atoms.py]:
    the atom selection parser, the projector, the first-fit plane
    clusterer, the plane orderer and the sign assigner of [main], followed
    by the properties of these functions; then the selection typed at
    the prompt, the selection written for reproducing a run,
    [parse_vector], [get_orthogonal_vector] and the command line, each
    with its properties. [float] on strings is a parameter of the parts
    that call it; reading the POSCAR file and formatting the output are
    not embedded.

    Conventions.
    - Python exceptions are values of [exn]; a computation that may raise
      returns a [result].
    - A Python [str] is a [string] whose characters are the code points
      0..255.
    - numpy's float64 is an instance [binary64] of the interface [Num];
      the algorithms are written once over the interface.
    - [planes], a [dict] filled in insertion order, is an association list
      in insertion order. *)

From Stdlib Require Import ZArith Floats String Ascii List Permutation Lia.
From Stdlib Require DecimalNat DecimalString.
From stdpp Require Import base list sorting.

Set Warnings "-inexact-float".

Open Scope Z_scope.

(* ================================================================== *)
(** * Exceptions *)

Inductive exn : Type :=
  | IndexError          (* numpy: index out of bounds *)
  | ValueError          (* int(): invalid literal *)
  | ZeroDivisionError.  (* integer division or modulo by zero *)

Inductive result (A : Type) : Type :=
  | Ok (a : A)
  | Raise (e : exn).
Arguments Ok {A} a.
Arguments Raise {A} e.

#[export] Instance result_bind : MBind result := fun A B k m =>
  match m with
  | Ok a => k a
  | Raise e => Raise e
  end.

(** A list comprehension whose body may raise: the first exception wins. *)
Fixpoint traverse {A B} (f : A -> result B) (l : list A) : result (list B) :=
  match l with
  | [] => Ok []
  | x :: l' => y ← f x; ys ← traverse f l'; Ok (y :: ys)
  end.

(* ================================================================== *)
(** * Text: the pieces of [str] that [parse_atom_selection] uses *)

Module Text.

Definition code (c : ascii) : N := N_of_ascii c.

(** [str.isspace] on the code points below 256. *)
Definition isspace (c : ascii) : bool :=
  let n := code c in
  ((9 <=? n) && (n <=? 13) || (28 <=? n) && (n <=? 32)
   || (n =? 133) || (n =? 160))%N.

(** The ASCII decimal digits, the only characters [int] accepts here. *)
Definition isdecimal_char (c : ascii) : bool :=
  let n := code c in ((48 <=? n) && (n <=? 57))%N.

(** [str.isdigit] on one character: the decimal digits and the
    superscripts two, three and one (code points 178, 179, 185). *)
Definition isdigit_char (c : ascii) : bool :=
  let n := code c in
  (isdecimal_char c || (n =? 178) || (n =? 179) || (n =? 185))%N.

Fixpoint all_chars (f : ascii -> bool) (s : string) : bool :=
  match s with
  | EmptyString => true
  | String c s' => f c && all_chars f s'
  end.

(** [s.isdigit()]: false on the empty string. *)
Definition isdigit (s : string) : bool :=
  match s with
  | EmptyString => false
  | _ => all_chars isdigit_char s
  end.

(** [s.lower()] on the code points below 256. *)
Definition lower_char (c : ascii) : ascii :=
  let n := code c in
  if ((65 <=? n) && (n <=? 90)
      || (192 <=? n) && (n <=? 222) && negb (n =? 215))%N
  then ascii_of_N (n + 32) else c.

Fixpoint lower (s : string) : string :=
  match s with
  | EmptyString => EmptyString
  | String c s' => String (lower_char c) (lower s')
  end.

(** [s.split()]: the maximal runs of characters that are not white space.
    [cur] is the run being read. *)
Fixpoint split_from (cur : string) (s : string) : list string :=
  match s with
  | EmptyString =>
      match cur with EmptyString => [] | _ => [cur] end
  | String c s' =>
      if isspace c then
        match cur with
        | EmptyString => split_from EmptyString s'
        | _ => cur :: split_from EmptyString s'
        end
      else split_from (cur ++ String c EmptyString) s'
  end.

Definition split (s : string) : list string := split_from EmptyString s.

Definition digit_value (c : ascii) : Z := Z.of_N (code c) - 48.

Fixpoint decimal_value (acc : Z) (s : string) : Z :=
  match s with
  | EmptyString => acc
  | String c s' => decimal_value (10 * acc + digit_value c) s'
  end.

(** [int(x)] for a token [x] made of digit characters: its decimal value,
    or [ValueError] when a character is not a decimal digit (a
    superscript). *)
Definition py_int (x : string) : result Z :=
  match x with
  | EmptyString => Raise ValueError
  | _ => if all_chars isdecimal_char x then Ok (decimal_value 0 x)
         else Raise ValueError
  end.

End Text.

(* ================================================================== *)
(** * Atom selection *)

(** The position a numpy array of length [n] reads for index [i]:
    negative indices count from the end. Every refusal is an
    [IndexError] here; for an index beyond the machine integers numpy
    raises as well. *)
Definition np_index (n : nat) (i : Z) : result nat :=
  if (0 <=? i) && (i <? Z.of_nat n) then Ok (Z.to_nat i)
  else if (- Z.of_nat n <=? i) && (i <? 0) then Ok (Z.to_nat (i + Z.of_nat n))
  else Raise IndexError.

(** [mask[idx] = True] for a list [idx] of integers. *)
Definition np_set_true (mask : list bool) (idx : list Z) : result (list bool) :=
  js ← traverse (np_index (length mask)) idx;
  Ok (foldl (fun m j => <[j := true]> m) mask js).

Definition str_in (e : string) (keep : list string) : bool :=
  existsb (String.eqb e) keep.

Definition parse_atom_selection (atom_str : string) (elems : list string)
  : result (list bool) :=
  let natoms := length elems in
  if String.eqb (Text.lower atom_str) "all" then Ok (replicate natoms true)
  else
    let parts := Text.split atom_str in
    if forallb Text.isdigit parts then
      idx ← traverse (fun x => n ← Text.py_int x; Ok (n - 1)) parts;
      np_set_true (replicate natoms false) idx
    else
      let keep := parts in
      Ok (map (fun e => str_in e keep) elems).

(* ================================================================== *)
(** * The numbers of the computation *)

(** The operations [main] applies to float64 values. [of_int] is the
    conversion of the integer sign in [sign * M]. *)
Class Num (F : Type) : Type := {
  fzero : F;
  fone : F;
  fadd : F -> F -> F;
  fsub : F -> F -> F;
  fmul : F -> F -> F;
  fdiv : F -> F -> F;
  fsqrt : F -> F;
  fabs : F -> F;
  fltb : F -> F -> bool;
  fleb : F -> F -> bool;
  of_int : Z -> F
}.

(** IEEE 754 binary64, the float64 of numpy. [of_int] is exact below
    2^53; [main] converts only 1 and -1. *)
#[export] Instance binary64 : Num float := {
  fzero := 0%float;
  fone := 1%float;
  fadd := PrimFloat.add;
  fsub := PrimFloat.sub;
  fmul := PrimFloat.mul;
  fdiv := PrimFloat.div;
  fsqrt := PrimFloat.sqrt;
  fabs := PrimFloat.abs;
  fltb := PrimFloat.ltb;
  fleb := PrimFloat.leb;
  of_int := fun z =>
    if z <? 0 then PrimFloat.opp (PrimFloat.of_uint63 (Uint63.of_Z (- z)))
    else PrimFloat.of_uint63 (Uint63.of_Z z)
}.

(* ================================================================== *)
(** * The core of [main] *)

Section Core.
Context {F : Type} `{Num F}.

Definition vec3 : Type := F * F * F.
(** A 3x3 matrix, as its three rows. *)
Definition mat3 : Type := vec3 * vec3 * vec3.

Definition dot3 (a b : vec3) : F :=
  let '(a0, a1, a2) := a in
  let '(b0, b1, b2) := b in
  fadd (fadd (fmul a0 b0) (fmul a1 b1)) (fmul a2 b2).

Definition column (j : nat) (m : mat3) : vec3 :=
  let '(r0, r1, r2) := m in
  let pick (r : vec3) := let '(x, y, z) := r in
    match j with O => x | S O => y | _ => z end in
  (pick r0, pick r1, pick r2).

(** [v @ m] for a vector and a matrix. *)
Definition vecmat (v : vec3) (m : mat3) : vec3 :=
  (dot3 v (column 0 m), dot3 v (column 1 m), dot3 v (column 2 m)).

(** [np.all(np.abs(n_vec) <= 1)] *)
Definition all_abs_le_one (v : vec3) : bool :=
  let '(x, y, z) := v in
  fleb (fabs x) fone && fleb (fabs y) fone && fleb (fabs z) fone.

(** [n_cart = n_vec @ lattice if np.all(np.abs(n_vec) <= 1) else n_vec] *)
Definition n_cart (n_vec : vec3) (lattice : mat3) : vec3 :=
  if all_abs_le_one n_vec then vecmat n_vec lattice else n_vec.

(** [np.linalg.norm] of a vector. *)
Definition norm (v : vec3) : F := fsqrt (dot3 v v).

Definition vdiv (v : vec3) (d : F) : vec3 :=
  let '(x, y, z) := v in (fdiv x d, fdiv y d, fdiv z d).

(** [n_hat = n_cart / np.linalg.norm(n_cart)]: numpy divides by a zero
    norm under the IEEE rules, it raises nothing. *)
Definition n_hat (n_vec : vec3) (lattice : mat3) : vec3 :=
  let c := n_cart n_vec lattice in vdiv c (norm c).

(** [cart = frac @ lattice; proj = cart @ n_hat] *)
Definition projections (n_vec : vec3) (lattice : mat3) (frac : list vec3)
  : list F :=
  let nh := n_hat n_vec lattice in
  let cart := map (fun x => vecmat x lattice) frac in
  map (fun c => dot3 c nh) cart.

(** ** Plane clustering *)

(** A value of [planes]: [[ref_proj, [atom_idx]]]. *)
Definition plane : Type := F * list nat.
(** [planes]: plane_id -> plane, in insertion order. *)
Definition plane_dict : Type := list (nat * plane).

Definition plane_id (kv : nat * plane) : nat := fst kv.
Definition ref_of (kv : nat * plane) : F := fst (snd kv).
Definition members (kv : nat * plane) : list nat := snd (snd kv).

(** [abs(p-ref)<tol] *)
Definition close (tol p ref : F) : bool := fltb (fabs (fsub p ref)) tol.

(** [next((k for k,(ref,_) in planes.items() if abs(p-ref)<tol), None)] *)
Definition find_plane (tol p : F) (planes : plane_dict) : option nat :=
  plane_id <$> List.find (fun kv => close tol p (ref_of kv)) planes.

(** [planes[k] = v]: the value of an existing key is replaced in place, a
    new key goes last. *)
Fixpoint dict_set (k : nat) (v : plane) (planes : plane_dict) : plane_dict :=
  match planes with
  | [] => [(k, v)]
  | (k', v') :: rest =>
      if Nat.eqb k k' then (k, v) :: rest else (k', v') :: dict_set k v rest
  end.

(** [planes[k][1].append(i)]. [k] is a key of [planes] wherever [main]
    runs this, so the lookup raises no KeyError. *)
Fixpoint append_member (k i : nat) (planes : plane_dict) : plane_dict :=
  match planes with
  | [] => []
  | (k', (ref, members)) :: rest =>
      if Nat.eqb k k' then (k', (ref, members ++ [i])) :: rest
      else (k', (ref, members)) :: append_member k i rest
  end.

(** The body of the clustering loop for a selected atom [i] of
    projection [p]. *)
Definition cluster_step (tol : F) (planes : plane_dict) (i : nat) (p : F)
  : plane_dict :=
  match find_plane tol p planes with
  | Some pid => append_member pid i planes
  | None =>
      let pid := length planes in
      append_member pid i (dict_set pid (p, []) planes)
  end.

(** [enumerate(l)], counting from [start]. *)
Fixpoint enumerate_from {A} (start : nat) (l : list A) : list (nat * A) :=
  match l with
  | [] => []
  | x :: l' => (start, x) :: enumerate_from (S start) l'
  end.

Definition enumerate {A} (l : list A) : list (nat * A) := enumerate_from 0 l.

(** [for i, p in enumerate(proj): if not mask[i]: continue; ...] *)
Fixpoint cluster_loop (tol : F) (mask : list bool) (atoms : list (nat * F))
    (planes : plane_dict) : result plane_dict :=
  match atoms with
  | [] => Ok planes
  | (i, p) :: rest =>
      match mask !! i with
      | None => Raise IndexError
      | Some false => cluster_loop tol mask rest planes
      | Some true => cluster_loop tol mask rest (cluster_step tol planes i p)
      end
  end.

Definition cluster (tol : F) (mask : list bool) (proj : list F)
  : result plane_dict :=
  cluster_loop tol mask (enumerate proj) [].

(** ** Plane ordering *)

(** [sorted(l, key=key)]: a stable sort that compares keys with [<]. Each
    item goes behind the items whose key is not greater than its own.
    Where [<] orders the keys this is the result of every stable sort,
    Python's included; so it is when no key is comparable to another
    (all NaN), where Python finds one ascending run and keeps the order.
    A mix of NaN and other keys is outside this model. *)
Fixpoint insert_by {A} (key : A -> F) (x : A) (l : list A) : list A :=
  match l with
  | [] => [x]
  | y :: l' =>
      if fltb (key x) (key y) then x :: y :: l' else y :: insert_by key x l'
  end.

Definition sorted {A} (key : A -> F) (l : list A) : list A :=
  foldl (fun acc x => insert_by key x acc) [] l.

(** [ordered = sorted(planes.items(), key=lambda kv: kv[1][0])] *)
Definition ordered (planes : plane_dict) : list (nat * plane) :=
  sorted ref_of planes.

(** ** Sign assignment *)

(** [+1 if (plane_id//L)%2 == 0 else -1] *)
Definition sign_of (plane_id L : Z) : result Z :=
  if L =? 0 then Raise ZeroDivisionError
  else Ok (if (plane_id / L) mod 2 =? 0 then 1 else -1).

(** [a[idx] = v] on a numpy array, for [idx] not negative. *)
Definition array_set (a : list F) (idx : nat) (v : F) : result (list F) :=
  if Nat.ltb idx (length a) then Ok (<[idx := v]> a) else Raise IndexError.

(** [for idx in idx_list: magmom_values[idx] = sign * M] *)
Fixpoint assign_plane (sign : Z) (M : F) (idx_list : list nat)
    (magmom_values : list F) : result (list F) :=
  match idx_list with
  | [] => Ok magmom_values
  | idx :: rest =>
      a ← array_set magmom_values idx (fmul (of_int sign) M);
      assign_plane sign M rest a
  end.

(** [for plane_id, (_, idx_list) in enumerate(a[1] for a in ordered)] *)
Fixpoint assign_loop (L : Z) (M : F) (ranked : list (nat * plane))
    (magmom_values : list F) : result (list F) :=
  match ranked with
  | [] => Ok magmom_values
  | (plane_id, (_, idx_list)) :: rest =>
      sign ← sign_of (Z.of_nat plane_id) L;
      a ← assign_plane sign M idx_list magmom_values;
      assign_loop L M rest a
  end.

Definition assign_signs (L : Z) (M : F) (natoms : nat)
    (ordered : list (nat * plane)) : result (list F) :=
  assign_loop L M (enumerate (map snd ordered)) (replicate natoms fzero).

(** [main] from the projections to [magmom_values], for a structure of
    [natoms] atoms. *)
Definition magmom_of (natoms : nat) (proj : list F) (mask : list bool)
    (tol : F) (L : Z) (M : F) : result (list F) :=
  planes ← cluster tol mask proj;
  assign_signs L M natoms (ordered planes).

(** [main] with its six arguments on the command line, from the parsed
    arguments and the structure read from the POSCAR file to
    [magmom_values]. The exceptions of [parse_atom_selection], which
    [main] reports before it exits, are results here. *)
Definition main_core (lattice : mat3) (frac : list vec3)
    (elems : list string) (n_vec : vec3) (atoms : string)
    (tol : F) (L : Z) (M : F) : result (list F) :=
  mask ← parse_atom_selection atoms elems;
  magmom_of (length elems) (projections n_vec lattice frac) mask tol L M.

End Core.

(* ================================================================== *)
(** * Vocabulary of the statements *)

(** The tokens [parts] are decimal numerals of values [values]. *)
Definition numerals (parts : list string) (values : list Z) : Prop :=
  Forall2 (fun x v => Text.py_int x = Ok v) parts values.

Section Vocabulary.
Context {F : Type} `{Num F}.

(** The atoms of all planes, plane after plane. *)
Definition all_members (planes : plane_dict (F:=F)) : list nat :=
  concat (map members planes).

(** The atoms inside the selection mask, in structural order. *)
Definition selected (mask : list bool) : list nat :=
  filter (fun i => mask !! i = Some true) (seq 0 (length mask)).

(** The keys of [planes] are [0 .. len(planes)-1] in insertion order: the
    plane created k-th has id k. *)
Definition keys_ok (planes : plane_dict (F:=F)) : Prop :=
  map plane_id planes = seq 0 (length planes).

(** The plane [kv] is not within tolerance of the projection [p]. *)
Definition far (tol p : F) (kv : nat * plane (F:=F)) : Prop :=
  close tol p (ref_of kv) = false.

(** The (index, projection) pairs of the atoms inside the mask. *)
Definition selected_atoms (mask : list bool) (proj : list F)
  : list (nat * F) :=
  filter (fun ip => mask !! fst ip = Some true) (enumerate proj).

(** One plane per atom of [atoms], with the atom's projection as reference
    value; ids count from [start]. *)
Fixpoint singletons (start : nat) (atoms : list (nat * F))
  : plane_dict (F:=F) :=
  match atoms with
  | [] => []
  | (i, p) :: rest => (start, (p, [i])) :: singletons (S start) rest
  end.

(** The sign of the plane of rank [r] for block size [L], as the spec
    writes it. *)
Definition block_sign (r L : Z) : Z :=
  if (r / L) mod 2 =? 0 then 1 else -1.

(** The comparison [<] is a strict weak order on the values that satisfy
    [ok] (for float64: on the values that are not NaN). *)
Record OrderLaws (ok : F -> Prop) : Prop := {
  flt_asym : forall x y, fltb x y = true -> fltb y x = false;
  flt_negtrans : forall x y z,
    ok y -> fltb x z = true -> fltb x y = true \/ fltb y z = true;
  fle_not_lt : forall x y,
    ok x -> ok y -> fltb y x = false -> fleb x y = true
}.

(** [a] goes before [b] in the sorted sequence of planes: its reference
    value is not greater, and with equal reference values it was created
    first. *)
Definition plane_before (a b : nat * plane (F:=F)) : Prop :=
  fleb (ref_of a) (ref_of b) = true
  /\ fltb (ref_of b) (ref_of a) = false
  /\ (fltb (ref_of a) (ref_of b) = false -> (plane_id a < plane_id b)%nat).

(** An absolute value is below no tolerance that is zero or negative. *)
Definition AbsLaw : Prop :=
  forall x t, fleb t fzero = true -> fltb (fabs x) t = false.

(** [x] is a zero (of either sign). *)
Definition is_zero (x : F) : bool := fleb (fabs x) fzero.

(** The arithmetic of zeros and of the value [nan] that 0/0 yields. *)
Record NanLaws (nan : F) : Prop := {
  mul_zero : forall x, is_zero x = true -> fmul x x = fzero;
  add_zero : fadd fzero fzero = fzero;
  sqrt_zero : fsqrt fzero = fzero;
  div_zero : forall x, is_zero x = true -> fdiv x fzero = nan;
  mul_nan : forall x, fmul x nan = nan;
  add_nan_r : forall x, fadd x nan = nan;
  sub_nan : forall x, fsub nan x = nan;
  abs_nan : fabs nan = nan;
  ltb_nan : forall t, fltb nan t = false
}.

End Vocabulary.

(** The structure of the spec's end-to-end scenario: a cubic cell of
    10 angstrom and four atoms. *)
Definition cubic10 : mat3 (F:=float) :=
  ((10, 0, 0), (0, 10, 0), (0, 0, 10))%float.
Definition four_atoms : list (vec3 (F:=float)) :=
  [(0, 0, 0); (0.5, 0.5, 0); (0, 0, 0.5); (0.5, 0.5, 0.5)]%float.
Definition four_elems : list string := ["Fe"; "Fe"; "Fe"; "Fe"]%string.

(** ** float64 comparisons through their specification *)

Module Binary64.

(** A key whose lexicographic order is the order of the floats. *)
Definition rank (f : spec_float) : Z * Z * Z :=
  match f with
  | S754_zero _ => (0, 0, 0)
  | S754_infinity s => (if s then -2 else 2, 0, 0)
  | S754_nan => (0, 0, 0)
  | S754_finite s m e =>
      if s then (-1, - e, - Z.pos m) else (1, e, Z.pos m)
  end.

Definition lex_lt (a b : Z * Z * Z) : Prop :=
  let '(a0, a1, a2) := a in
  let '(b0, b1, b2) := b in
  a0 < b0 \/ (a0 = b0 /\ (a1 < b1 \/ (a1 = b1 /\ a2 < b2))).

Definition not_nan (f : spec_float) : Prop := f <> S754_nan.

End Binary64.

(* ================================================================== *)
(** * float64: the laws the statements assume *)

Module Binary64Facts.

Import Binary64.

(** Closes the cases of a comparison of two specification floats once
    the constructors and signs are known. *)
Ltac close_rank_case :=
  cbn;
  try (split; [discriminate | intros (? & ? & ?); try congruence; lia]);
  try (split; [intros _; repeat split; try discriminate; lia | reflexivity]).

Ltac rank_cases m1 e1 m2 e2 :=
  change (PosDef.Pos.compare_cont Eq m1 m2) with (Pos.compare m1 m2);
  destruct (Z.compare_spec e1 e2); [destruct (Pos.compare_spec m1 m2)| |];
  close_rank_case.

Lemma SFltb_rank f1 f2 :
  SFltb f1 f2 = true <->
  (not_nan f1 /\ not_nan f2 /\ lex_lt (rank f1) (rank f2)).
Proof.
  unfold SFltb, not_nan.
  destruct f1 as [s1|s1| |s1 m1 e1], f2 as [s2|s2| |s2 m2 e2]; cbn;
    try destruct s1; try destruct s2; close_rank_case.
  - rank_cases m1 e1 m2 e2.
  - rank_cases m1 e1 m2 e2.
Qed.

Lemma SFleb_rank f1 f2 :
  SFleb f1 f2 = true <->
  (not_nan f1 /\ not_nan f2 /\ ~ lex_lt (rank f2) (rank f1)).
Proof.
  unfold SFleb, not_nan.
  destruct f1 as [s1|s1| |s1 m1 e1], f2 as [s2|s2| |s2 m2 e2]; cbn;
    try destruct s1; try destruct s2; close_rank_case.
  - rank_cases m1 e1 m2 e2.
  - rank_cases m1 e1 m2 e2.
Qed.

Lemma is_nan_Prim2SF x : is_nan x = false <-> not_nan (Prim2SF x).
Proof.
  unfold is_nan, not_nan. rewrite FloatAxioms.eqb_spec. unfold SFeqb.
  destruct (Prim2SF x) as [s|s| |s m e]; cbn; try destruct s; cbn;
    try (split; [discriminate | congruence]);
    try (split; [intros _; discriminate | reflexivity]).
  - change (PosDef.Pos.compare_cont Eq m m) with (Pos.compare m m).
    rewrite Z.compare_refl, Pos.compare_refl. cbn.
    split; [intros _; discriminate | reflexivity].
  - change (PosDef.Pos.compare_cont Eq m m) with (Pos.compare m m).
    rewrite Z.compare_refl, Pos.compare_refl. cbn.
    split; [intros _; discriminate | reflexivity].
Qed.

Lemma ltb_asym x y : PrimFloat.ltb x y = true -> PrimFloat.ltb y x = false.
Proof.
  rewrite !ltb_spec. intros Hxy. apply SFltb_rank in Hxy as (_ & _ & Hxy).
  destruct (SFltb (Prim2SF y) (Prim2SF x)) eqn:Hyx; [|reflexivity].
  apply SFltb_rank in Hyx as (_ & _ & Hyx).
  destruct (rank (Prim2SF x)) as [[? ?] ?], (rank (Prim2SF y)) as [[? ?] ?].
  cbn in *. lia.
Qed.

Lemma ltb_negtrans x y z :
  is_nan y = false ->
  PrimFloat.ltb x z = true ->
  PrimFloat.ltb x y = true \/ PrimFloat.ltb y z = true.
Proof.
  rewrite !ltb_spec, is_nan_Prim2SF. intros Hy Hxz.
  apply SFltb_rank in Hxz as (Hx & Hz & Hxz).
  assert (lex_lt (rank (Prim2SF x)) (rank (Prim2SF y)) \/
          lex_lt (rank (Prim2SF y)) (rank (Prim2SF z))) as [Hl|Hl].
  { destruct (rank (Prim2SF x)) as [[? ?] ?], (rank (Prim2SF y)) as [[? ?] ?],
      (rank (Prim2SF z)) as [[? ?] ?]. cbn in *. lia. }
  - left. apply SFltb_rank. auto.
  - right. apply SFltb_rank. auto.
Qed.

Lemma leb_of_not_ltb x y :
  is_nan x = false -> is_nan y = false ->
  PrimFloat.ltb y x = false -> PrimFloat.leb x y = true.
Proof.
  rewrite ltb_spec, leb_spec, !is_nan_Prim2SF. intros Hx Hy Hlt.
  apply SFleb_rank. repeat split; auto.
  intros Hl. assert (SFltb (Prim2SF y) (Prim2SF x) = true); [|congruence].
  apply SFltb_rank. auto.
Qed.

Lemma abs_not_ltb x t :
  PrimFloat.leb t 0 = true -> PrimFloat.ltb (PrimFloat.abs x) t = false.
Proof.
  rewrite leb_spec, ltb_spec, abs_spec.
  change (Prim2SF 0) with (S754_zero false).
  destruct (Prim2SF x) as [s1|s1| |s1 m1 e1], (Prim2SF t) as [s2|s2| |s2 m2 e2];
    cbn; try destruct s2; try reflexivity; try discriminate.
Qed.

(** NaN and the zeros. *)
Lemma mul_nan_r x : (x * nan)%float = nan.
Proof.
  apply Prim2SF_inj. rewrite mul_spec. change (Prim2SF nan) with S754_nan.
  destruct (Prim2SF x); reflexivity.
Qed.

Lemma add_nan_r x : (x + nan)%float = nan.
Proof.
  apply Prim2SF_inj. rewrite add_spec. change (Prim2SF nan) with S754_nan.
  destruct (Prim2SF x); reflexivity.
Qed.

Lemma sub_nan_l x : (nan - x)%float = nan.
Proof.
  apply Prim2SF_inj. rewrite sub_spec. change (Prim2SF nan) with S754_nan.
  destruct (Prim2SF x); reflexivity.
Qed.

Lemma ltb_nan_l t : PrimFloat.ltb nan t = false.
Proof. rewrite ltb_spec. change (Prim2SF nan) with S754_nan. reflexivity. Qed.

Lemma is_zero_SF (x : float) :
  is_zero x = true -> exists s, Prim2SF x = S754_zero s.
Proof.
  unfold is_zero. cbn. rewrite leb_spec, abs_spec.
  change (Prim2SF 0) with (S754_zero false).
  destruct (Prim2SF x) as [s| | |]; cbn; try discriminate; eauto.
Qed.

Lemma mul_zero_zero (x : float) : is_zero x = true -> (x * x)%float = 0%float.
Proof.
  intros [s Hs]%is_zero_SF. apply Prim2SF_inj. rewrite mul_spec, Hs.
  destruct s; reflexivity.
Qed.

Lemma div_zero_zero (x : float) : is_zero x = true -> (x / 0)%float = nan.
Proof.
  intros [s Hs]%is_zero_SF. apply Prim2SF_inj. rewrite div_spec, Hs.
  destruct s; reflexivity.
Qed.


Lemma abs_nan : PrimFloat.abs nan = nan.
Proof. reflexivity. Qed.

Lemma ltb_irrefl x : PrimFloat.ltb x x = false.
Proof.
  destruct (PrimFloat.ltb x x) eqn:Hx; [|reflexivity].
  now rewrite (ltb_asym x x Hx) in Hx.
Qed.

Lemma order_laws : OrderLaws (F:=float) (fun x => is_nan x = false).
Proof.
  split.
  - exact ltb_asym.
  - exact ltb_negtrans.
  - exact leb_of_not_ltb.
Qed.

Lemma abs_law : AbsLaw (F:=float).
Proof. exact abs_not_ltb. Qed.

Lemma nan_laws : NanLaws (F:=float) nan.
Proof.
  split.
  - exact mul_zero_zero.
  - reflexivity.
  - reflexivity.
  - exact div_zero_zero.
  - exact mul_nan_r.
  - exact add_nan_r.
  - exact sub_nan_l.
  - exact abs_nan.
  - exact ltb_nan_l.
Qed.

End Binary64Facts.

(* ================================================================== *)
(** * Atom selection: properties *)

(** Case analysis on the integer comparisons of the goal. *)
Ltac case_cmp :=
  repeat match goal with
  | |- context [(?a <=? ?b)%Z] => destruct (Z.leb_spec a b)
  | |- context [(?a <? ?b)%Z] => destruct (Z.ltb_spec a b)
  | |- context [(?a =? ?b)%Z] => destruct (Z.eqb_spec a b)
  end.

Section Selection.
Local Open Scope nat_scope.

Lemma str_in_spec (e : string) (keep : list string) :
  str_in e keep = true <-> e ∈ keep.
Proof.
  unfold str_in. rewrite existsb_exists. setoid_rewrite String.eqb_eq.
  rewrite list_elem_of_In. split.
  - intros (x & Hx & ->). exact Hx.
  - intros He. exists e. auto.
Qed.

(** A label that is no digit string is matched by no digit token. *)
Lemma str_in_drop_digits (e : string) (keep : list string) :
  Text.isdigit e = false ->
  str_in e keep = str_in e (filter (fun t => Text.isdigit t = false) keep).
Proof.
  intros He. unfold str_in. induction keep as [|t keep IH]; [reflexivity|].
  rewrite filter_cons. destruct (decide (Text.isdigit t = false)) as [Ht|Ht].
  - cbn. now rewrite IH.
  - cbn. rewrite IH. destruct (String.eqb_spec e t) as [->|]; [|reflexivity].
    congruence.
Qed.

Lemma lookup_map_str_in (elems keep : list string) (i : nat) :
  map (fun e => str_in e keep) elems !! i = Some true <->
  exists e, elems !! i = Some e /\ e ∈ keep.
Proof.
  change (map ?f elems) with (f <$> elems). rewrite list_lookup_fmap.
  destruct (elems !! i) as [e|]; cbn.
  - split.
    + intros [= He]. exists e. split; [reflexivity|]. now apply str_in_spec.
    + intros (e' & [= <-] & He). f_equal. now apply str_in_spec.
  - split; [discriminate|]. intros (? & ? & _). discriminate.
Qed.

(** C10. When [atom_str] is not the word all and its tokens are not all
    digit strings, [parse_atom_selection] takes every token, numeric ones
    included, as an element label: atom i is selected exactly when its
    label is one of the tokens. With labels that are no digit strings the
    numeric tokens select nothing: the mask is the one of the other
    tokens alone. Only when every token is a digit string are the tokens
    read as indices. *)
Theorem mixed_tokens_are_labels (atom_str : string) (elems : list string) :
  Text.lower atom_str <> "all"%string ->
  forallb Text.isdigit (Text.split atom_str) = false ->
  let parts := Text.split atom_str in
  parse_atom_selection atom_str elems
    = Ok (map (fun e => str_in e parts) elems)
  /\ (forall mask i, parse_atom_selection atom_str elems = Ok mask ->
        (mask !! i = Some true <->
         exists e, elems !! i = Some e /\ e ∈ parts))
  /\ (Forall (fun e => Text.isdigit e = false) elems ->
      parse_atom_selection atom_str elems
        = Ok (map (fun e =>
                str_in e (filter (fun t => Text.isdigit t = false) parts))
              elems))
  /\ (forall other : string,
        Text.lower other <> "all"%string ->
        forallb Text.isdigit (Text.split other) = true ->
        parse_atom_selection other elems
          = idx ← traverse (fun x => n ← Text.py_int x; Ok (n - 1)%Z)
                   (Text.split other);
            np_set_true (replicate (length elems) false) idx).
Proof.
  intros Hall Hmixed parts.
  assert (parse_atom_selection atom_str elems
          = Ok (map (fun e => str_in e parts) elems)) as Hparse.
  { unfold parse_atom_selection.
    apply String.eqb_neq in Hall. rewrite Hall.
    fold parts. unfold parts at 1. now rewrite Hmixed. }
  split; [exact Hparse|]. split; [|split].
  - intros mask i Hm. rewrite Hparse in Hm. injection Hm as <-.
    apply lookup_map_str_in.
  - intros Hlabels. rewrite Hparse. f_equal.
    apply map_ext_in. intros e He.
    apply str_in_drop_digits.
    rewrite Forall_forall in Hlabels. apply Hlabels. now apply list_elem_of_In.
  - intros other Hother Hdigits. unfold parse_atom_selection.
    apply String.eqb_neq in Hother. now rewrite Hother, Hdigits.
Qed.

Lemma mixed_tokens_are_labels_witness :
  parse_atom_selection "1 Fe" ["Fe"; "Ni"; "Fe"]%string
  = Ok [true; false; true].
Proof.
  refine (proj1 (mixed_tokens_are_labels "1 Fe" ["Fe"; "Ni"; "Fe"]%string _ _)).
  - discriminate.
  - reflexivity.
Defined.

(** ** Index lists *)

Lemma traverse_Ok {A B} (f : A -> result B) (l : list A) (ys : list B) :
  traverse f l = Ok ys <-> Forall2 (fun x y => f x = Ok y) l ys.
Proof.
  revert ys. induction l as [|x l IH]; intros ys; cbn.
  - split.
    + intros [= <-]. constructor.
    + intros Hf. apply Forall2_nil_inv_l in Hf. now subst.
  - destruct (f x) as [y|e] eqn:Hx; cbn.
    + destruct (traverse f l) as [ys'|e] eqn:Hl; cbn.
      * split.
        -- intros [= <-]. constructor; [exact Hx|]. now apply IH.
        -- intros Hf. apply Forall2_cons_inv_l in Hf as (y' & ys'' & Hy & Hys & ->).
           apply IH in Hys. congruence.
      * split; [discriminate|].
        intros Hf. apply Forall2_cons_inv_l in Hf as (y' & ys'' & Hy & Hys & ->).
        apply IH in Hys. discriminate.
    + split; [discriminate|].
      intros Hf. apply Forall2_cons_inv_l in Hf as (y' & ys'' & Hy & Hys & ->).
      congruence.
Qed.

(** A comprehension raises [e] when one item raises [e] and no item
    raises anything else. *)
Lemma traverse_Raise {A B} (f : A -> result B) (l : list A) (e : exn) :
  Exists (fun x => f x = Raise e) l ->
  Forall (fun x => forall e', f x = Raise e' -> e' = e) l ->
  traverse f l = Raise e.
Proof.
  induction l as [|x l IH]; intros Hex Hall; [inversion Hex|].
  apply Forall_cons in Hall as [Hx Hall]. cbn.
  destruct (f x) as [y|e'] eqn:Hfx; cbn.
  - apply Exists_cons in Hex as [Hex|Hex]; [congruence|].
    now rewrite (IH Hex Hall).
  - now rewrite (Hx e' eq_refl).
Qed.

Lemma py_int_isdigit (x : string) (v : Z) :
  Text.py_int x = Ok v -> Text.isdigit x = true.
Proof.
  unfold Text.py_int, Text.isdigit. destruct x as [|c x]; [discriminate|].
  destruct (Text.all_chars Text.isdecimal_char (String c x)) eqn:Hd;
    [intros _|discriminate].
  revert Hd. generalize (String c x). intros s.
  induction s as [|c' s IH]; [reflexivity|]. cbn.
  intros [Hc Hs]%andb_prop. rewrite (IH Hs), andb_true_r.
  unfold Text.isdigit_char. now rewrite Hc.
Qed.

Lemma lookup_set_true (js : list nat) (mask : list bool) (i : nat) :
  foldl (fun m j => <[j := true]> m) mask js !! i = Some true <->
  (i < length mask /\ i ∈ js) \/ mask !! i = Some true.
Proof.
  revert mask. induction js as [|j js IH]; intros mask; cbn.
  - split; [auto|]. intros [[_ Hin]|Hm]; [|exact Hm]. inversion Hin.
  - rewrite IH, length_insert. destruct (decide (i = j)) as [->|Hne].
    + split.
      * intros [[Hlt _]|Hm].
        -- left. split; [exact Hlt|]. left.
        -- apply lookup_lt_Some in Hm. rewrite length_insert in Hm.
           left. split; [exact Hm|]. left.
      * intros [[Hlt _]|Hm].
        -- right. now apply list_lookup_insert_eq.
        -- right. apply list_lookup_insert_eq. now apply lookup_lt_Some in Hm.
    + rewrite list_lookup_insert_ne by congruence. split.
      * intros [[Hlt Hin]|Hm]; [left|now right]. split; [exact Hlt|now right].
      * intros [[Hlt Hin]|Hm]; [left|now right]. split; [exact Hlt|].
        apply elem_of_cons in Hin as [->|Hin]; [congruence|exact Hin].
Qed.

Lemma length_set_true (js : list nat) (mask : list bool) :
  length (foldl (fun m j => <[j := true]> m) mask js) = length mask.
Proof.
  revert mask. induction js as [|j js IH]; intros mask; cbn; [reflexivity|].
  now rewrite IH, length_insert.
Qed.

Lemma numerals_isdigit (parts : list string) (values : list Z) :
  numerals parts values -> forallb Text.isdigit parts = true.
Proof.
  induction 1 as [|x v parts values Hx _ IH]; [reflexivity|]. cbn.
  now rewrite (py_int_isdigit _ _ Hx), IH.
Qed.

Lemma numerals_indices (parts : list string) (values : list Z) :
  numerals parts values ->
  traverse (fun x => n ← Text.py_int x; Ok (n - 1)%Z) parts
  = Ok (map (fun v => (v - 1)%Z) values).
Proof.
  intros Hn. apply traverse_Ok. induction Hn as [|x v parts values Hx _ IH].
  - constructor.
  - cbn. constructor; [now rewrite Hx|exact IH].
Qed.


(** An index list with every index between 1 and the number of atoms
    gives the mask of exactly the listed atoms. *)
Lemma indices_in_range (atom_str : string) (elems : list string)
    (values : list Z) :
  Text.lower atom_str <> "all"%string ->
  numerals (Text.split atom_str) values ->
  Forall (fun v => (1 <= v <= Z.of_nat (length elems))%Z) values ->
  exists mask,
    parse_atom_selection atom_str elems = Ok mask
    /\ length mask = length elems
    /\ forall i, mask !! i = Some true <->
         (i < length elems /\ Z.of_nat (S i) ∈ values).
Proof.
  intros Hall Hn Hrange. unfold parse_atom_selection.
  apply String.eqb_neq in Hall. rewrite Hall, (numerals_isdigit _ _ Hn).
  rewrite (numerals_indices _ _ Hn). cbn. unfold np_set_true.
  rewrite length_replicate.
  assert (traverse (np_index (length elems)) (map (fun v => (v - 1)%Z) values)
          = Ok (map (fun v => Z.to_nat (v - 1)) values)) as ->.
  { apply traverse_Ok. clear Hn. induction Hrange as [|v values Hv _ IH].
    - constructor.
    - cbn in *. constructor; [|exact IH]. unfold np_index.
      case_cmp; cbn; try reflexivity; lia. }
  cbn. eexists. split; [reflexivity|]. split.
  - now rewrite length_set_true, length_replicate.
  - intros i. rewrite lookup_set_true, length_replicate. split.
    + intros [[Hlt Hin]|Hm].
      * split; [exact Hlt|].
        apply list_elem_of_In, in_map_iff in Hin as (v & Hv & Hin).
        apply list_elem_of_In. rewrite Forall_forall in Hrange.
        assert (1 <= v <= Z.of_nat (length elems))%Z
          by (apply Hrange; now apply list_elem_of_In).
        replace (Z.of_nat (S i)) with v by lia. exact Hin.
      * apply lookup_replicate in Hm as [[=] _].
    + intros [Hlt Hin]. left. split; [exact Hlt|].
      apply list_elem_of_In, in_map_iff. exists (Z.of_nat (S i)).
      split; [lia|]. now apply list_elem_of_In.
Qed.

(** C9. The index 0 is outside 1..N, yet it is not refused: it becomes
    the numpy index -1 and selects the last atom. *)
Theorem index_zero_selects_last_atom (elems : list string) (e : string) :
  parse_atom_selection "0" (elems ++ [e])
  = Ok (replicate (length elems) false ++ [true]).
Proof.
  change (parse_atom_selection "0" (elems ++ [e]))
    with (np_set_true (replicate (length (elems ++ [e])) false) [(-1)%Z]).
  unfold np_set_true. rewrite length_replicate, length_app. cbn [traverse length].
  unfold np_index.
  destruct (Z.leb_spec 0 (-1)) as [Hneg|_]; [lia|].
  destruct (Z.leb_spec (- Z.of_nat (length elems + 1)) (-1)) as [_|Hlen]; [|lia].
  cbn [andb mbind result_bind foldl Z.ltb Z.compare].
  replace (Z.to_nat (-1 + Z.of_nat (length elems + 1))) with (length elems + 0)
    by lia.
  replace (length elems + 1) with (S (length elems)) by lia.
  rewrite replicate_S_end.
  set (l := replicate (length elems) false).
  replace (length elems + 0) with (length l + 0)
    by (unfold l; now rewrite length_replicate).
  now rewrite insert_app_r.
Qed.

End Selection.

(* ================================================================== *)
(** * Plane clustering: properties *)

Section Clustering.
Context {F : Type} `{Num F}.
Local Open Scope nat_scope.

Implicit Types (planes l : plane_dict (F:=F)) (tol p ref : F).
Implicit Types (mask : list bool) (mem : list nat) (k i : nat).

(** ** The search *)

Lemma find_plane_Some tol p planes k :
  find_plane tol p planes = Some k ->
  exists l1 ref mem l2,
    planes = l1 ++ (k, (ref, mem)) :: l2
    /\ close tol p ref = true /\ Forall (far tol p) l1.
Proof.
  unfold find_plane. induction planes as [|[k' [ref mem]] planes IH]; cbn.
  - discriminate.
  - unfold ref_of at 1. cbn. destruct (close tol p ref) eqn:Hc; cbn.
    + intros [= <-]. exists [], ref, mem, planes. repeat split; auto.
    + intros Hf. destruct (IH Hf) as (l1 & r & m & l2 & -> & Hr & Hl1).
      exists ((k', (ref, mem)) :: l1), r, m, l2. repeat split; auto.
Qed.

Lemma find_plane_None tol p planes :
  find_plane tol p planes = None <-> Forall (far tol p) planes.
Proof.
  unfold find_plane. induction planes as [|[k' [ref mem]] planes IH]; cbn.
  - split; auto.
  - unfold ref_of at 1. cbn. destruct (close tol p ref) eqn:Hc; cbn.
    + split; [discriminate|]. intros Hf. apply Forall_cons in Hf as [Hf _].
      unfold far, ref_of in Hf. cbn in Hf. congruence.
    + rewrite IH. split.
      * intros Hf. constructor; [exact Hc|exact Hf].
      * intros Hf. now apply Forall_cons in Hf as [_ Hf].
Qed.

Lemma find_plane_first tol p l1 k ref mem l2 :
  Forall (far tol p) l1 -> close tol p ref = true ->
  find_plane tol p (l1 ++ (k, (ref, mem)) :: l2) = Some k.
Proof.
  intros Hl1 Hc. unfold find_plane.
  induction Hl1 as [|[k' [r m]] l1 Hx _ IH]; cbn.
  - unfold ref_of. cbn. now rewrite Hc.
  - unfold far, ref_of in Hx. cbn in Hx. unfold ref_of at 1. cbn.
    now rewrite Hx.
Qed.

(** ** The two updates of the dict *)

Lemma append_member_at k i l1 ref mem l2 :
  k ∉ map plane_id l1 ->
  append_member k i (l1 ++ (k, (ref, mem)) :: l2)
  = l1 ++ (k, (ref, mem ++ [i])) :: l2.
Proof.
  induction l1 as [|[k' [r m]] l1 IH]; cbn; intros Hk.
  - now rewrite Nat.eqb_refl.
  - apply not_elem_of_cons in Hk as [Hne Hk].
    destruct (Nat.eqb_spec k k') as [->|_]; [now contradiction Hne|].
    now rewrite IH.
Qed.

Lemma dict_set_fresh k v planes :
  k ∉ map plane_id planes -> dict_set k v planes = planes ++ [(k, v)].
Proof.
  induction planes as [|[k' v'] planes IH]; cbn; intros Hk; [reflexivity|].
  apply not_elem_of_cons in Hk as [Hne Hk].
  destruct (Nat.eqb_spec k k') as [->|_]; [now contradiction Hne|].
  now rewrite IH.
Qed.

(** ** The loop body *)

Lemma keys_ok_fresh planes : keys_ok planes -> length planes ∉ map plane_id planes.
Proof.
  unfold keys_ok. intros ->. rewrite elem_of_seq. lia.
Qed.

Lemma keys_ok_split l1 k (v : plane (F:=F)) l2 :
  keys_ok (l1 ++ (k, v) :: l2) -> k ∉ map plane_id l1.
Proof.
  unfold keys_ok. intros Hk Hin.
  assert (NoDup (map plane_id (l1 ++ (k, v) :: l2))) as Hnd
    by (rewrite Hk; apply NoDup_seq).
  rewrite map_app in Hnd. apply NoDup_app in Hnd as (_ & Hdis & _).
  apply (Hdis k Hin). cbn. left.
Qed.

Lemma cluster_step_match tol l1 k ref mem l2 i p :
  keys_ok (l1 ++ (k, (ref, mem)) :: l2) ->
  Forall (far tol p) l1 -> close tol p ref = true ->
  cluster_step tol (l1 ++ (k, (ref, mem)) :: l2) i p
  = l1 ++ (k, (ref, mem ++ [i])) :: l2.
Proof.
  intros Hk Hl1 Hc. unfold cluster_step.
  rewrite (find_plane_first _ _ _ _ _ _ _ Hl1 Hc).
  apply append_member_at. eapply keys_ok_split, Hk.
Qed.

Lemma cluster_step_new tol planes i p :
  keys_ok planes -> Forall (far tol p) planes ->
  cluster_step tol planes i p = planes ++ [(length planes, (p, [i]))].
Proof.
  intros Hk Hfar. unfold cluster_step.
  apply find_plane_None in Hfar. rewrite Hfar.
  rewrite dict_set_fresh by now apply keys_ok_fresh.
  rewrite append_member_at by now apply keys_ok_fresh.
  reflexivity.
Qed.

(** The loop body either extends the first plane within tolerance, or
    appends a new plane. *)
Lemma cluster_step_cases tol planes i p :
  keys_ok planes ->
  (exists l1 k ref mem l2,
     planes = l1 ++ (k, (ref, mem)) :: l2
     /\ Forall (far tol p) l1 /\ close tol p ref = true
     /\ cluster_step tol planes i p = l1 ++ (k, (ref, mem ++ [i])) :: l2)
  \/ (Forall (far tol p) planes
      /\ cluster_step tol planes i p = planes ++ [(length planes, (p, [i]))]).
Proof.
  intros Hk. destruct (find_plane tol p planes) as [k|] eqn:Hf.
  - left. apply find_plane_Some in Hf as (l1 & ref & mem & l2 & -> & Hc & Hl1).
    exists l1, k, ref, mem, l2. repeat split; auto.
    now apply cluster_step_match.
  - right. apply find_plane_None in Hf. split; [exact Hf|].
    now apply cluster_step_new.
Qed.

Lemma keys_ok_nil : keys_ok ([] : plane_dict (F:=F)).
Proof. reflexivity. Qed.

Lemma cluster_step_keys tol planes i p :
  keys_ok planes -> keys_ok (cluster_step tol planes i p).
Proof.
  intros Hk.
  destruct (cluster_step_cases tol planes i p Hk)
    as [(l1 & k & ref & mem & l2 & -> & _ & _ & ->)|[_ ->]].
  - unfold keys_ok in *. rewrite map_app, length_app in *. exact Hk.
  - unfold keys_ok in *. rewrite map_app, length_app, Hk. cbn.
    now rewrite seq_app.
Qed.

Lemma all_members_app planes1 planes2 :
  all_members (planes1 ++ planes2)
  = all_members planes1 ++ all_members planes2.
Proof. unfold all_members. now rewrite map_app, concat_app. Qed.

Lemma cluster_step_members tol planes i p :
  keys_ok planes ->
  all_members (cluster_step tol planes i p) ≡ₚ all_members planes ++ [i].
Proof.
  intros Hk.
  destruct (cluster_step_cases tol planes i p Hk)
    as [(l1 & k & ref & mem & l2 & -> & _ & _ & ->)|[_ ->]].
  - rewrite !all_members_app. unfold all_members, members. cbn.
    rewrite <- !app_assoc. apply Permutation_app_head.
    apply Permutation_app_head. cbn. apply Permutation_cons_append.
  - rewrite all_members_app. reflexivity.
Qed.

Lemma cluster_step_nonempty tol planes i p :
  keys_ok planes ->
  Forall (fun kv => members kv <> []) planes ->
  Forall (fun kv => members kv <> []) (cluster_step tol planes i p).
Proof.
  intros Hk Hne.
  destruct (cluster_step_cases tol planes i p Hk)
    as [(l1 & k & ref & mem & l2 & -> & _ & _ & ->)|[_ ->]].
  - apply Forall_app in Hne as [H1 H2]. apply Forall_cons in H2 as [_ H2].
    apply Forall_app. split; [exact H1|]. constructor; [|exact H2].
    unfold members. cbn. now destruct mem.
  - apply Forall_app. split; [exact Hne|]. constructor; [|constructor].
    discriminate.
Qed.

Lemma cluster_step_refs (P : F -> Prop) tol planes i p :
  keys_ok planes -> P p ->
  Forall (fun kv => P (ref_of kv)) planes ->
  Forall (fun kv => P (ref_of kv)) (cluster_step tol planes i p).
Proof.
  intros Hk Hp HP.
  destruct (cluster_step_cases tol planes i p Hk)
    as [(l1 & k & ref & mem & l2 & -> & _ & _ & ->)|[_ ->]].
  - apply Forall_app in HP as [H1 H2]. apply Forall_cons in H2 as [Hr H2].
    apply Forall_app. split; [exact H1|]. constructor; [exact Hr|exact H2].
  - apply Forall_app. split; [exact HP|]. constructor; [exact Hp|constructor].
Qed.

(** ** The loop *)

Lemma fst_enumerate_from {A} (start : nat) (xs : list A) :
  map fst (enumerate_from start xs) = seq start (length xs).
Proof.
  revert start. induction xs as [|x xs IH]; intros start; cbn; [reflexivity|].
  now rewrite IH.
Qed.

Lemma enumerate_from_app {A} (start : nat) (xs ys : list A) :
  enumerate_from start (xs ++ ys)
  = enumerate_from start xs ++ enumerate_from (start + length xs) ys.
Proof.
  revert start. induction xs as [|x xs IH]; intros start; cbn.
  - now rewrite Nat.add_0_r.
  - rewrite IH. now replace (S start + length xs) with (start + S (length xs)) by lia.
Qed.

Lemma cluster_loop_app tol mask (atoms1 atoms2 : list (nat * F)) planes :
  cluster_loop tol mask (atoms1 ++ atoms2) planes
  = planes' ← cluster_loop tol mask atoms1 planes;
    cluster_loop tol mask atoms2 planes'.
Proof.
  revert planes. induction atoms1 as [|[i p] atoms1 IH]; intros planes; cbn.
  - reflexivity.
  - destruct (mask !! i) as [[|]|]; cbn; auto.
Qed.

(** With a mask entry for every atom the loop raises nothing. *)
Lemma cluster_loop_total tol mask (atoms : list (nat * F)) planes :
  Forall (fun ip => fst ip < length mask) atoms ->
  exists planes', cluster_loop tol mask atoms planes = Ok planes'.
Proof.
  intros Hin. revert planes.
  induction Hin as [|[i p] atoms Hi _ IH]; intros planes; cbn.
  - eauto.
  - cbn in Hi. apply lookup_lt_is_Some_2 in Hi as [b Hb]. rewrite Hb.
    destruct b; apply IH.
Qed.

(** What every step on a selected atom preserves holds at the end. *)
Lemma cluster_loop_invariant (I : plane_dict (F:=F) -> Prop)
    tol mask (atoms : list (nat * F)) planes planes' :
  (forall pl i p, I pl -> (i, p) ∈ atoms -> mask !! i = Some true ->
                  I (cluster_step tol pl i p)) ->
  I planes ->
  cluster_loop tol mask atoms planes = Ok planes' -> I planes'.
Proof.
  revert planes. induction atoms as [|[i p] atoms IH]; intros planes Hstep HI; cbn.
  - now intros [= <-].
  - destruct (mask !! i) as [[|]|] eqn:Hm; [| |discriminate].
    + apply IH.
      * intros pl j q Hpl Hin. apply Hstep; [exact Hpl|now right].
      * apply Hstep; [exact HI|left|exact Hm].
    + apply IH; [|exact HI].
      intros pl j q Hpl Hin. apply Hstep; [exact Hpl|now right].
Qed.

Lemma cluster_loop_keys tol mask (atoms : list (nat * F)) planes planes' :
  keys_ok planes ->
  cluster_loop tol mask atoms planes = Ok planes' -> keys_ok planes'.
Proof.
  apply (cluster_loop_invariant keys_ok). intros pl i p Hpl _ _.
  now apply cluster_step_keys.
Qed.

Lemma cluster_loop_nonempty tol mask (atoms : list (nat * F)) planes planes' :
  keys_ok planes -> Forall (fun kv => members kv <> []) planes ->
  cluster_loop tol mask atoms planes = Ok planes' ->
  Forall (fun kv => members kv <> []) planes'.
Proof.
  intros Hk Hne Hloop.
  refine (proj2 (cluster_loop_invariant
    (fun pl => keys_ok pl /\ Forall (fun kv => members kv <> []) pl)
    tol mask atoms planes planes' _ (conj Hk Hne) Hloop)).
  intros pl i p [Hk' Hne'] _ _. split.
  - now apply cluster_step_keys.
  - now apply cluster_step_nonempty.
Qed.

Lemma cluster_loop_refs (P : F -> Prop) tol mask (atoms : list (nat * F))
    planes planes' :
  keys_ok planes -> Forall (fun kv => P (ref_of kv)) planes ->
  Forall (fun ip => P (snd ip)) atoms ->
  cluster_loop tol mask atoms planes = Ok planes' ->
  Forall (fun kv => P (ref_of kv)) planes'.
Proof.
  intros Hk HP Hatoms Hloop.
  refine (proj2 (cluster_loop_invariant
    (fun pl => keys_ok pl /\ Forall (fun kv => P (ref_of kv)) pl)
    tol mask atoms planes planes' _ (conj Hk HP) Hloop)).
  intros pl i p [Hk' HP'] Hin _. split.
  - now apply cluster_step_keys.
  - apply cluster_step_refs; [exact Hk'| |exact HP'].
    rewrite Forall_forall in Hatoms. apply (Hatoms (i, p)), Hin.
Qed.

Lemma cluster_loop_members tol mask (atoms : list (nat * F)) planes planes' :
  keys_ok planes ->
  cluster_loop tol mask atoms planes = Ok planes' ->
  all_members planes'
  ≡ₚ all_members planes
     ++ filter (fun i => mask !! i = Some true) (map fst atoms).
Proof.
  revert planes.
  induction atoms as [|[i p] atoms IH]; intros planes Hk;
    cbn [cluster_loop map fst].
  - intros [= <-]. now rewrite app_nil_r.
  - rewrite filter_cons.
    destruct (mask !! i) as [[|]|] eqn:Hm; [| |discriminate].
    + intros Hloop. rewrite decide_True by reflexivity.
      rewrite (IH _ (cluster_step_keys tol planes i p Hk) Hloop).
      rewrite cluster_step_members by exact Hk.
      now rewrite <- app_assoc.
    + intros Hloop. rewrite decide_False by discriminate. now apply IH.
Qed.

(** When no projection is ever within tolerance of a reference value,
    every selected atom opens a plane. *)
Lemma cluster_loop_never_close tol mask (atoms : list (nat * F)) planes :
  keys_ok planes ->
  Forall (fun ip => fst ip < length mask) atoms ->
  Forall (fun ip => forall ref, close tol (snd ip) ref = false) atoms ->
  cluster_loop tol mask atoms planes
  = Ok (planes ++ singletons (length planes)
                    (filter (fun ip => mask !! fst ip = Some true) atoms)).
Proof.
  intros Hk Hin Hfar. revert planes Hk.
  induction atoms as [|[i p] atoms IH]; intros planes Hk; cbn [cluster_loop].
  - now rewrite app_nil_r.
  - apply Forall_cons in Hin as [Hi Hin]. apply Forall_cons in Hfar as [Hp Hfar].
    cbn in Hi, Hp. rewrite filter_cons. cbn [fst].
    apply lookup_lt_is_Some_2 in Hi as [b Hb]. rewrite Hb. destruct b.
    + rewrite decide_True by reflexivity.
      rewrite cluster_step_new; [|exact Hk|].
      * rewrite IH; [|exact Hin|exact Hfar|].
        -- rewrite length_app. cbn. rewrite <- app_assoc. cbn.
           now replace (length planes + 1) with (S (length planes)) by lia.
        -- rewrite <- (cluster_step_new tol planes i p Hk).
           ++ now apply cluster_step_keys.
           ++ apply Forall_forall. intros kv _. apply Hp.
      * apply Forall_forall. intros kv _. apply Hp.
    + rewrite decide_False by discriminate. now apply IH.
Qed.

Lemma enumerate_in_range {A} (xs : list A) (n : nat) :
  length xs <= n -> Forall (fun ip => fst ip < n) (enumerate xs).
Proof.
  intros Hn. apply Forall_forall. intros [i x] Hin.
  assert (i ∈ map fst (enumerate xs)) as Hi.
  { apply list_elem_of_In, in_map_iff. exists (i, x). split; [reflexivity|].
    now apply list_elem_of_In. }
  unfold enumerate in Hi. rewrite fst_enumerate_from, elem_of_seq in Hi.
  cbn. lia.
Qed.

Lemma cluster_total tol mask (proj : list F) :
  length proj <= length mask ->
  exists planes, cluster tol mask proj = Ok planes.
Proof.
  intros Hlen. apply cluster_loop_total. now apply enumerate_in_range.
Qed.

(** The state of [planes] after the first [S n] atoms is one pass of the
    loop body on atom [n] from the state after the first [n] atoms. *)
Lemma cluster_take_S tol mask (proj : list F) (n : nat) p :
  proj !! n = Some p ->
  cluster tol mask (take (S n) proj)
  = planes ← cluster tol mask (take n proj);
    cluster_loop tol mask [(n, p)] planes.
Proof.
  intros Hp. unfold cluster, enumerate.
  rewrite (take_S_r _ _ _ Hp), enumerate_from_app, cluster_loop_app.
  cbn [enumerate_from]. rewrite length_take.
  apply lookup_lt_Some in Hp.
  now replace (0 + n `min` length proj) with n by lia.
Qed.

End Clustering.

(* ================================================================== *)
(** * Plane clustering: the claims *)

Section ClusteringClaims.
Context {F : Type} `{Num F}.
Local Open Scope nat_scope.

Implicit Types (planes l : plane_dict (F:=F)) (tol p ref : F).
Implicit Types (mask : list bool) (mem : list nat) (k i n : nat).

Lemma cluster_keys tol mask (proj : list F) planes :
  cluster tol mask proj = Ok planes -> keys_ok planes.
Proof. apply cluster_loop_keys, keys_ok_nil. Qed.

(** C1. Clustering is one pass over the atoms in structural order, and
    first fit. Let [planes] be the planes after the first [n] atoms and
    [p] the projection of atom [n]. An atom outside the mask changes
    nothing. An atom inside the mask joins the first plane, in creation
    order, whose reference value [ref] has [abs(p-ref)<tol]: the planes
    before it are all too far, its members get [n] appended and every
    reference value stays. When no plane is within tolerance a new plane
    of reference value [p] and single member [n] is created, last. The
    inequality is strict: a difference of exactly [tol] does not match. *)
Theorem first_fit_clustering tol mask (proj : list F) n p planes :
  (forall x : F, fltb x x = false) ->
  proj !! n = Some p ->
  cluster tol mask (take n proj) = Ok planes ->
  (mask !! n = Some false ->
   cluster tol mask (take (S n) proj) = Ok planes)
  /\ (mask !! n = Some true ->
      (forall l1 k ref mem l2,
         planes = l1 ++ (k, (ref, mem)) :: l2 ->
         Forall (far tol p) l1 -> close tol p ref = true ->
         cluster tol mask (take (S n) proj)
         = Ok (l1 ++ (k, (ref, mem ++ [n])) :: l2))
      /\ (Forall (far tol p) planes ->
          cluster tol mask (take (S n) proj)
          = Ok (planes ++ [(length planes, (p, [n]))])))
  /\ ((exists l1 k ref mem l2,
         planes = l1 ++ (k, (ref, mem)) :: l2
         /\ Forall (far tol p) l1 /\ close tol p ref = true)
      \/ Forall (far tol p) planes)
  /\ (forall ref, close tol p ref = true <->
                  fltb (fabs (fsub p ref)) tol = true)
  /\ (forall ref, fabs (fsub p ref) = tol -> close tol p ref = false)
  /\ (forall planes', cluster tol mask (take (S n) proj) = Ok planes' ->
        map ref_of planes `prefix_of` map ref_of planes')
  /\ cluster tol mask (take (length proj) proj) = cluster tol mask proj.
Proof.
  intros Hirr Hp Hplanes.
  pose proof (cluster_keys _ _ _ _ Hplanes) as Hk.
  pose proof (cluster_take_S tol mask proj n p Hp) as HS.
  rewrite Hplanes in HS. cbn in HS.
  assert (mask !! n = Some true ->
          cluster tol mask (take (S n) proj) = Ok (cluster_step tol planes n p))
    as Hstep.
  { intros Hm. rewrite HS. now rewrite Hm. }
  split; [|split; [|split; [|split; [|split; [|split]]]]].
  - intros Hm. rewrite HS. now rewrite Hm.
  - intros Hm. split.
    + intros l1 k ref mem l2 -> Hl1 Hc. rewrite (Hstep Hm).
      f_equal. now apply cluster_step_match.
    + intros Hfar. rewrite (Hstep Hm). f_equal. now apply cluster_step_new.
  - destruct (cluster_step_cases tol planes n p Hk)
      as [(l1 & k & ref & mem & l2 & -> & Hl1 & Hc & _)|[Hfar _]].
    + left. exists l1, k, ref, mem, l2. auto.
    + now right.
  - reflexivity.
  - intros ref Hd. unfold close. rewrite Hd. apply Hirr.
  - intros planes'. rewrite HS.
    destruct (mask !! n) as [[|]|]; [| |discriminate]; intros [= <-].
    + destruct (cluster_step_cases tol planes n p Hk)
        as [(l1 & k & ref & mem & l2 & -> & _ & _ & ->)|[_ ->]].
      * rewrite !map_app. cbn. reflexivity.
      * rewrite map_app. now apply prefix_app_r.
    + reflexivity.
  - now rewrite firstn_all.
Qed.

Lemma lookup_map_Some {A B} (f : A -> B) (xs : list A) (j : nat) (x : A) :
  xs !! j = Some x -> map f xs !! j = Some (f x).
Proof.
  revert j. induction xs as [|y xs IH]; intros [|j]; cbn; try discriminate.
  - now intros [= ->].
  - apply IH.
Qed.

Lemma elem_of_concat {A} (x : A) (ls : list (list A)) :
  x ∈ concat ls <-> exists xs : list A, x ∈ xs /\ xs ∈ ls.
Proof.
  rewrite list_elem_of_In, in_concat. split.
  - intros (xs & Hl & Hx). exists xs. now rewrite !list_elem_of_In.
  - intros (xs & Hx & Hl). exists xs. now rewrite <- !list_elem_of_In.
Qed.

Lemma concat_unique {A} (ls : list (list A)) (k k' : nat) (a b : list A) (x : A) :
  NoDup (concat ls) ->
  ls !! k = Some a -> ls !! k' = Some b -> x ∈ a -> x ∈ b -> k = k'.
Proof.
  revert k k'. induction ls as [|c ls IH]; intros k k' Hnd Ha Hb Hxa Hxb.
  - discriminate.
  - cbn in Hnd. apply NoDup_app in Hnd as (_ & Hdis & Hnd).
    assert (forall j d, ls !! j = Some d -> x ∈ d -> x ∈ concat ls) as Hin.
    { intros j d Hj Hd. apply elem_of_concat. exists d. split; [exact Hd|].
      now apply list_elem_of_lookup_2 in Hj. }
    destruct k as [|k], k' as [|k']; cbn in Ha, Hb.
    + reflexivity.
    + injection Ha as <-. exfalso. apply (Hdis x Hxa). eapply Hin; eauto.
    + injection Hb as <-. exfalso. apply (Hdis x Hxb). eapply Hin; eauto.
    + f_equal. eapply IH; eauto.
Qed.

Lemma selected_spec mask i : i ∈ selected mask <-> mask !! i = Some true.
Proof.
  unfold selected. rewrite list_elem_of_filter, elem_of_seq. split.
  - now intros [Hm _].
  - intros Hm. split; [exact Hm|]. apply lookup_lt_Some in Hm. lia.
Qed.

Lemma NoDup_selected mask : NoDup (selected mask).
Proof. apply NoDup_filter, NoDup_seq. Qed.

Lemma cluster_members tol mask (proj : list F) planes :
  length mask = length proj ->
  cluster tol mask proj = Ok planes ->
  all_members planes ≡ₚ selected mask.
Proof.
  intros Hlen Hc. unfold cluster in Hc.
  rewrite (cluster_loop_members _ _ _ _ _ keys_ok_nil Hc). cbn.
  unfold enumerate. rewrite fst_enumerate_from. unfold selected.
  now rewrite Hlen.
Qed.

(** The clusterer raises nothing when the mask has an entry per atom, and
    the member lists of its planes hold exactly the selected atoms, each
    once. *)
Lemma cluster_partition tol mask (proj : list F) :
  length mask = length proj ->
  exists planes,
    cluster tol mask proj = Ok planes
    /\ all_members planes ≡ₚ selected mask
    /\ NoDup (all_members planes)
    /\ (forall i kv, kv ∈ planes -> i ∈ members kv ->
          mask !! i = Some true).
Proof.
  intros Hlen.
  destruct (cluster_total tol mask proj) as [planes Hc]; [lia|].
  pose proof (cluster_members _ _ _ _ Hlen Hc) as Hperm.
  exists planes. split; [exact Hc|]. split; [exact Hperm|]. split.
  - rewrite Hperm. apply NoDup_selected.
  - intros i kv Hkv Hi. apply selected_spec. rewrite <- Hperm.
    apply elem_of_concat. exists (members kv). split; [exact Hi|].
    apply list_elem_of_In, in_map, list_elem_of_In, Hkv.
Qed.

(** C3. The planes partition the selected atoms. With a mask entry per
    atom the clusterer raises nothing; an atom inside the mask is a member
    of exactly one plane, once; an atom outside the mask is a member of
    none; a mask that selects no atom gives no plane. *)
Theorem planes_partition_selection tol mask (proj : list F) :
  length mask = length proj ->
  exists planes,
    cluster tol mask proj = Ok planes
    /\ all_members planes ≡ₚ selected mask
    /\ NoDup (all_members planes)
    /\ (forall i, mask !! i = Some true ->
          exists k kv, planes !! k = Some kv /\ i ∈ members kv
            /\ forall k' kv', planes !! k' = Some kv' -> i ∈ members kv' ->
                 k' = k)
    /\ (forall i, mask !! i <> Some true ->
          forall kv, kv ∈ planes -> i ∉ members kv)
    /\ ((forall i, mask !! i <> Some true) -> planes = []).
Proof.
  intros Hlen.
  destruct (cluster_partition tol mask proj Hlen)
    as (planes & Hc & Hperm & Hnd & Hsel).
  exists planes. split; [exact Hc|]. split; [exact Hperm|].
  split; [exact Hnd|]. split; [|split].
  - intros i Hi. apply selected_spec in Hi. rewrite <- Hperm in Hi.
    apply elem_of_concat in Hi as (m & Hi & Hm).
    apply list_elem_of_In, in_map_iff in Hm as (kv & <- & Hkv).
    apply list_elem_of_In, list_elem_of_lookup in Hkv as [k Hk].
    exists k, kv. split; [exact Hk|]. split; [exact Hi|].
    intros k' kv' Hk' Hi'.
    apply (concat_unique (map members planes) k' k (members kv') (members kv) i);
      auto.
    + now apply lookup_map_Some.
    + now apply lookup_map_Some.
  - intros i Hi kv Hkv Hin. apply Hi. eapply Hsel; eauto.
  - intros Hnone.
    assert (Forall (fun kv => members kv <> []) planes) as Hne.
    { eapply cluster_loop_nonempty; [apply keys_ok_nil|constructor|exact Hc]. }
    destruct planes as [|kv planes]; [reflexivity|].
    apply Forall_cons in Hne as [Hne _].
    destruct (members kv) as [|i m] eqn:Hm; [now contradiction Hne|].
    exfalso. apply (Hnone i). apply (Hsel i kv); [left|].
    rewrite Hm. left.
Qed.

End ClusteringClaims.

Section ClusteringExamples.
Local Open Scope nat_scope.

Lemma first_fit_clustering_witness :
  cluster 0.02%float [true; true; true; true]
    (take 2 [0; 0; 5; 5]%float)
  = Ok [(0, (0%float, [0; 1]))].
Proof.
  refine (proj1 (proj1 (proj2 (first_fit_clustering 0.02%float
    [true; true; true; true] [0; 0; 5; 5]%float 1 0%float
    [(0, (0%float, [0]))] Binary64Facts.ltb_irrefl eq_refl eq_refl))
    eq_refl) [] 0 0%float [0] [] eq_refl _ eq_refl).
  constructor.
Defined.

Lemma planes_partition_selection_witness :
  exists planes,
    cluster 0.02%float [true; false; true; true] [0; 0; 5; 5]%float = Ok planes
    /\ all_members planes ≡ₚ selected [true; false; true; true].
Proof.
  destruct (planes_partition_selection 0.02%float [true; false; true; true]
              [0; 0; 5; 5]%float eq_refl) as (planes & Hc & Hperm & _).
  exists planes. split; [exact Hc|exact Hperm].
Defined.

End ClusteringExamples.

(* ================================================================== *)
(** * Plane ordering: properties *)

Section Ordering.
Context {F : Type} `{Num F} (ok : F -> Prop) (laws : OrderLaws ok).
Local Open Scope nat_scope.

Implicit Types (planes l : plane_dict (F:=F)) (x y : nat * plane (F:=F)).

Lemma insert_by_perm x l : insert_by ref_of x l ≡ₚ x :: l.
Proof.
  induction l as [|y l IH]; cbn; [reflexivity|].
  destruct (fltb (ref_of x) (ref_of y)); [reflexivity|].
  rewrite IH. apply Permutation_swap.
Qed.

Lemma ordered_snoc planes x :
  ordered (planes ++ [x]) = insert_by ref_of x (ordered planes).
Proof. unfold ordered, sorted. now rewrite foldl_snoc. Qed.

Lemma ordered_perm planes : ordered planes ≡ₚ planes.
Proof.
  induction planes as [|x planes IH] using rev_ind; [reflexivity|].
  rewrite ordered_snoc, insert_by_perm, IH. apply Permutation_cons_append.
Qed.

(** Inserting a plane created after all planes of a sorted sequence
    keeps the sequence sorted, with ties in creation order. *)
Lemma insert_by_before x l :
  ok (ref_of x) -> Forall (fun y => ok (ref_of y)) l ->
  Forall (fun y => plane_id y < plane_id x) l ->
  StronglySorted plane_before l ->
  StronglySorted plane_before (insert_by ref_of x l).
Proof.
  intros Hx Hok Hid Hs. induction l as [|y l IH]; cbn.
  - repeat constructor.
  - apply Forall_cons in Hok as [Hy Hok]. apply Forall_cons in Hid as [Hyx Hid].
    apply StronglySorted_cons in Hs as [Hyl Hs].
    destruct (fltb (ref_of x) (ref_of y)) eqn:Hxy.
    + assert (forall z, ok (ref_of z) -> fltb (ref_of x) (ref_of z) = true ->
                        plane_before x z) as Hlt.
      { intros z Hz Hxz. pose proof (flt_asym ok laws _ _ Hxz) as Hzx.
        split; [|split]; [|exact Hzx|congruence].
        now apply (fle_not_lt ok laws). }
      constructor; [now constructor|].
      constructor; [now apply Hlt|].
      rewrite Forall_forall in Hyl, Hok. apply Forall_forall. intros z Hz.
      apply Hlt; [now apply Hok|].
      destruct (flt_negtrans ok laws _ (ref_of z) _ (Hok z Hz) Hxy) as [Hxz|Hzy];
        [exact Hxz|].
      destruct (Hyl z Hz) as (_ & Hzy' & _). congruence.
    + constructor; [now apply IH|].
      rewrite insert_by_perm. constructor; [|exact Hyl].
      split; [|split]; [|exact Hxy|intros _; exact Hyx].
      now apply (fle_not_lt ok laws).
Qed.

Lemma ordered_before planes :
  Forall (fun y => ok (ref_of y)) planes ->
  StronglySorted (fun a b => plane_id a < plane_id b) planes ->
  StronglySorted plane_before (ordered planes).
Proof.
  induction planes as [|x planes IH] using rev_ind; intros Hok Hs.
  - constructor.
  - apply Forall_app in Hok as [Hok Hx]. apply Forall_cons in Hx as [Hx _].
    rewrite ordered_snoc. apply insert_by_before.
    + exact Hx.
    + now rewrite ordered_perm.
    + rewrite ordered_perm. apply Forall_forall. intros y Hy.
      apply (StronglySorted_app_1_elem_of _ _ _ _ _ Hs Hy). left.
    + apply IH; [exact Hok|]. now apply StronglySorted_app_1_l in Hs.
Qed.

Lemma seq_ids_sorted (start : nat) planes :
  map plane_id planes = seq start (length planes) ->
  StronglySorted (fun a b => plane_id a < plane_id b) planes.
Proof.
  revert start. induction planes as [|x planes IH]; intros start Hk.
  - constructor.
  - cbn in Hk. injection Hk as Hx Hk. constructor; [now apply (IH (S start))|].
    apply Forall_forall. intros y Hy.
    assert (plane_id y ∈ map plane_id planes) as Hin
      by now apply list_elem_of_In, in_map, list_elem_of_In.
    rewrite Hk, elem_of_seq in Hin. lia.
Qed.

Lemma keys_ok_lookup planes (k : nat) x :
  keys_ok planes -> planes !! k = Some x -> plane_id x = k.
Proof.
  unfold keys_ok. intros Hk Hx.
  apply (lookup_map_Some plane_id) in Hx. rewrite Hk in Hx.
  apply lookup_seq in Hx. lia.
Qed.

Lemma enumerate_from_snd {A} (P : A -> Prop) (start : nat) (xs : list A) :
  Forall P xs -> Forall (fun ip => P (snd ip)) (enumerate_from start xs).
Proof.
  intros HP. revert start.
  induction HP as [|x xs Hx _ IH]; intros start; cbn; constructor; auto.
Qed.

Lemma StronglySorted_lookup {A} (R : A -> A -> Prop) (xs : list A)
    (i j : nat) (a b : A) :
  StronglySorted R xs -> i < j ->
  xs !! i = Some a -> xs !! j = Some b -> R a b.
Proof.
  intros Hs. revert i j. induction Hs as [|c xs Hs IH Hc]; intros i j Hij Ha Hb.
  - discriminate.
  - destruct j as [|j]; [lia|]. cbn in Hb. destruct i as [|i]; cbn in Ha.
    + injection Ha as <-. rewrite Forall_forall in Hc.
      apply Hc. now apply list_elem_of_lookup_2 in Hb.
    + apply (IH i j); [lia|exact Ha|exact Hb].
Qed.

(** C4. The ordered plane sequence is a rearrangement of the planes; its
    ranks are 0..P-1; across ranks the reference values do not decrease;
    and planes of equal reference value keep their creation order (a
    plane's id is its creation index). The comparison of the reference
    values has to be an order, which for float64 excludes NaN. *)
Theorem ordered_planes_sorted_stable (tol : F) (mask : list bool)
    (proj : list F) (planes : plane_dict) :
  Forall ok proj ->
  cluster tol mask proj = Ok planes ->
  ordered planes ≡ₚ planes
  /\ map fst (enumerate (map snd (ordered planes))) = seq 0 (length planes)
  /\ (forall r1 r2 a b,
        r1 < r2 ->
        ordered planes !! r1 = Some a -> ordered planes !! r2 = Some b ->
        fleb (ref_of a) (ref_of b) = true
        /\ fltb (ref_of b) (ref_of a) = false
        /\ (fltb (ref_of a) (ref_of b) = false -> plane_id a < plane_id b)
        /\ (ref_of a = ref_of b -> plane_id a < plane_id b))
  /\ (forall k kv, planes !! k = Some kv -> plane_id kv = k).
Proof.
  intros Hok Hc.
  pose proof (cluster_keys _ _ _ _ Hc) as Hk.
  assert (Forall (fun y => ok (ref_of y)) planes) as Hrefs.
  { apply (cluster_loop_refs ok tol mask (enumerate proj) [] planes);
      [apply keys_ok_nil|constructor| |exact Hc].
    apply enumerate_from_snd, Hok. }
  split; [apply ordered_perm|]. split; [|split].
  - unfold enumerate. rewrite fst_enumerate_from, length_map.
    now rewrite ordered_perm.
  - intros r1 r2 a b Hr Ha Hb.
    assert (plane_before a b) as (Hle & Hge & Htie).
    { apply (StronglySorted_lookup plane_before (ordered planes) r1 r2 a b);
        auto.
      apply ordered_before; [exact Hrefs|].
      now apply (seq_ids_sorted 0). }
    split; [exact Hle|]. split; [exact Hge|]. split; [exact Htie|].
    intros Heq. apply Htie. rewrite Heq in *. exact Hge.
  - intros k kv. now apply keys_ok_lookup.
Qed.

End Ordering.

Section OrderingExamples.
Local Open Scope nat_scope.

Lemma ordered_planes_sorted_stable_witness :
  ordered [(0, (5%float, [0])); (1, (0%float, [1]));
           (2, (5%float, [2])); (3, (0%float, [3]))]
  ≡ₚ [(0, (5%float, [0])); (1, (0%float, [1]));
      (2, (5%float, [2])); (3, (0%float, [3]))].
Proof.
  refine (proj1 (ordered_planes_sorted_stable (fun x => is_nan x = false)
    Binary64Facts.order_laws 0%float [true; true; true; true]
    [5; 0; 5; 0]%float _ _ eq_refl)).
  repeat constructor.
Defined.

End OrderingExamples.

(* ================================================================== *)
(** * Sign assignment: properties *)

Section Signs.
Context {F : Type} `{Num F}.
Local Open Scope nat_scope.

Implicit Types (planes l : plane_dict (F:=F)) (M : F) (L : Z).
Implicit Types (a : list F) (pls : list (plane (F:=F))).

Lemma sign_of_nonzero (r L : Z) :
  L <> 0%Z -> sign_of r L = Ok (block_sign r L).
Proof.
  intros HL. unfold sign_of. now destruct (Z.eqb_spec L 0).
Qed.

Lemma assign_plane_spec (s : Z) M (idxs : list nat) a :
  Forall (fun j => j < length a) idxs ->
  exists a',
    assign_plane s M idxs a = Ok a'
    /\ length a' = length a
    /\ (forall j, j ∈ idxs -> a' !! j = Some (fmul (of_int s) M))
    /\ (forall j, j ∉ idxs -> a' !! j = a !! j).
Proof.
  intros Hin. revert a Hin.
  induction idxs as [|idx idxs IH]; intros a Hin; cbn.
  - exists a. repeat split; auto. intros j Hj. inversion Hj.
  - apply Forall_cons in Hin as [Hidx Hin]. unfold array_set.
    apply Nat.ltb_lt in Hidx as Hb. rewrite Hb. cbn.
    destruct (IH (<[idx := fmul (of_int s) M]> a)) as (a' & Ha' & Hlen & Hset & Hkeep).
    { now rewrite length_insert. }
    exists a'. split; [exact Ha'|]. split; [now rewrite Hlen, length_insert|].
    split.
    + intros j Hj. destruct (decide (j ∈ idxs)) as [Hjin|Hjout].
      * now apply Hset.
      * apply elem_of_cons in Hj as [->|Hj]; [|contradiction].
        rewrite (Hkeep idx Hjout). now apply list_lookup_insert_eq.
    + intros j Hj. apply not_elem_of_cons in Hj as [Hne Hj].
      rewrite (Hkeep j Hj). now apply list_lookup_insert_ne.
Qed.

(** The loop over the ranked planes, for a block size that is not zero:
    nothing is raised, atoms of no plane keep their value, and when no
    atom is in two planes every atom gets the moment of its plane's
    rank. *)
Lemma assign_loop_spec L M pls (start : nat) a :
  L <> 0%Z ->
  Forall (fun pl => Forall (fun j => j < length a) (snd pl)) pls ->
  exists a',
    assign_loop L M (enumerate_from start pls) a = Ok a'
    /\ length a' = length a
    /\ (forall j, j ∉ concat (map snd pls) -> a' !! j = a !! j)
    /\ (NoDup (concat (map snd pls)) ->
        forall r pl j, pls !! r = Some pl -> j ∈ snd pl ->
          a' !! j
          = Some (fmul (of_int (block_sign (Z.of_nat (start + r)) L)) M)).
Proof.
  intros HL Hin. revert start a Hin.
  induction pls as [|[ref idxs] pls IH]; intros start a Hin; cbn.
  - exists a. repeat split; auto. intros _ r pl j Hr. discriminate.
  - apply Forall_cons in Hin as [Hidxs Hin]. cbn in Hidxs.
    rewrite (sign_of_nonzero _ _ HL). cbn.
    destruct (assign_plane_spec (block_sign (Z.of_nat start) L) M idxs a Hidxs)
      as (a1 & Ha1 & Hlen1 & Hset1 & Hkeep1).
    rewrite Ha1. cbn.
    destruct (IH (S start) a1) as (a' & Ha' & Hlen & Hkeep & Hset).
    { now rewrite Hlen1. }
    exists a'. split; [exact Ha'|]. split; [congruence|]. split.
    + intros j Hj. rewrite not_elem_of_app in Hj. destruct Hj as [Hj1 Hj2].
      now rewrite (Hkeep j Hj2), (Hkeep1 j Hj1).
    + intros Hnd r pl j Hr Hj. apply NoDup_app in Hnd as (_ & Hdis & Hnd).
      destruct r as [|r]; cbn in Hr.
      * injection Hr as <-. cbn in Hj.
        rewrite (Hkeep j (Hdis j Hj)), Nat.add_0_r. now apply Hset1.
      * replace (start + S r) with (S start + r) by lia.
        now apply (Hset Hnd r pl j).
Qed.

Lemma concat_perm {A} (xs ys : list (list A)) :
  xs ≡ₚ ys -> concat xs ≡ₚ concat ys.
Proof.
  induction 1 as [|x xs ys _ IH|x y xs|xs ys zs _ IH1 _ IH2]; cbn.
  - reflexivity.
  - now apply Permutation_app_head.
  - apply Permutation_app_swap_app.
  - now rewrite IH1.
Qed.

Lemma all_members_ordered planes :
  concat (map snd (map snd (ordered planes))) ≡ₚ all_members planes.
Proof.
  unfold all_members, members. rewrite map_map.
  apply concat_perm, Permutation_map, ordered_perm.
Qed.

(** [main], from the projections on, for a block size that is not zero:
    nothing is raised, every atom of the plane of rank [r] gets the moment
    [block_sign r L * M], and every atom outside the mask keeps the
    moment 0. *)
Lemma magmom_of_spec (natoms : nat) (proj : list F) (mask : list bool)
    (tol : F) L M :
  L <> 0%Z -> length mask = length proj -> length proj = natoms ->
  exists planes magmom,
    cluster tol mask proj = Ok planes
    /\ magmom_of natoms proj mask tol L M = Ok magmom
    /\ length magmom = natoms
    /\ (forall r kv idx,
          ordered planes !! r = Some kv -> idx ∈ members kv ->
          magmom !! idx
          = Some (fmul (of_int (block_sign (Z.of_nat r) L)) M))
    /\ (forall idx, idx < natoms -> mask !! idx <> Some true ->
          magmom !! idx = Some fzero).
Proof.
  intros HL Hmask Hproj.
  destruct (cluster_partition tol mask proj Hmask)
    as (planes & Hc & Hperm & Hnd & Hin).
  pose proof (all_members_ordered planes) as Hord.
  assert (forall j, j ∈ all_members planes -> j < natoms) as Hrange.
  { intros j Hj. rewrite Hperm in Hj. apply selected_spec, lookup_lt_Some in Hj.
    lia. }
  destruct (assign_loop_spec L M (map snd (ordered planes)) 0
              (replicate natoms fzero) HL) as (magmom & Hm & Hlen & Hkeep & Hset).
  { apply Forall_forall. intros pl Hpl. apply Forall_forall. intros j Hj.
    rewrite length_replicate. apply Hrange. rewrite <- Hord.
    apply elem_of_concat. exists (snd pl). split; [exact Hj|].
    now apply list_elem_of_In, in_map, list_elem_of_In. }
  exists planes, magmom. split; [exact Hc|]. split; [|split; [|split]].
  - unfold magmom_of. rewrite Hc. exact Hm.
  - now rewrite Hlen, length_replicate.
  - intros r kv idx Hr Hidx.
    apply (Hset ltac:(rewrite Hord; exact Hnd) r (snd kv) idx);
      [|exact Hidx].
    now apply lookup_map_Some.
  - intros idx Hidx Hsel. rewrite Hkeep.
    + now apply lookup_replicate_2.
    + rewrite Hord. intros Hin'.
      apply elem_of_concat in Hin' as (m & Hin' & Hm').
      apply list_elem_of_In, in_map_iff in Hm' as (kv & <- & Hkv).
      apply Hsel, (Hin idx kv); [now apply list_elem_of_In|exact Hin'].
Qed.

Lemma block_sign_one (r : Z) :
  block_sign r 1 = if Z.even r then 1%Z else (-1)%Z.
Proof.
  unfold block_sign. rewrite Z.div_1_r, Zmod_even.
  now destruct (Z.even r).
Qed.

Lemma block_sign_two (r : Z) :
  block_sign r 2 = if (r mod 4 <? 2)%Z then 1%Z else (-1)%Z.
Proof.
  unfold block_sign.
  assert (r mod 4 = 2 * ((r / 2) mod 2) + r mod 2)%Z as Hmod.
  { pose proof (Z.div_mod r 2 ltac:(lia)).
    pose proof (Z.div_mod (r / 2) 2 ltac:(lia)).
    pose proof (Z.mod_pos_bound r 2 ltac:(lia)).
    pose proof (Z.mod_pos_bound (r / 2) 2 ltac:(lia)).
    symmetry. apply (Z.mod_unique_pos _ _ (r / 2 / 2)); lia. }
  pose proof (Z.mod_pos_bound r 2 ltac:(lia)).
  pose proof (Z.mod_pos_bound (r / 2) 2 ltac:(lia)).
  case_cmp; lia.
Qed.

Lemma block_sign_first_block (r L : Z) :
  (0 <= r < L)%Z -> block_sign r L = 1%Z.
Proof.
  intros Hr. unfold block_sign. now rewrite Z.div_small.
Qed.

(** C2. For a block size [L >= 1] the plane of sorted rank [r] has sign
    +1 when [(r // L) % 2 == 0] and -1 otherwise, and every atom of that
    plane receives the moment sign * M. With [L = 1] the sign alternates
    from one plane to the next, with [L = 2] every two planes, and with
    [L = P] (any [L] above the last rank) every plane has sign +1. *)
Theorem block_signs (natoms : nat) (proj : list F) (mask : list bool)
    (tol : F) L M :
  (1 <= L)%Z -> length mask = length proj -> length proj = natoms ->
  (exists planes magmom,
     cluster tol mask proj = Ok planes
     /\ magmom_of natoms proj mask tol L M = Ok magmom
     /\ forall r kv idx,
          ordered planes !! r = Some kv -> idx ∈ members kv ->
          sign_of (Z.of_nat r) L
            = Ok (if ((Z.of_nat r / L) mod 2 =? 0)%Z then 1%Z else (-1)%Z)
          /\ magmom !! idx
             = Some (fmul (of_int (if ((Z.of_nat r / L) mod 2 =? 0)%Z
                                   then 1%Z else (-1)%Z)) M))
  /\ (forall r : Z, sign_of r 1 = Ok (if Z.even r then 1%Z else (-1)%Z))
  /\ (forall r : Z,
        sign_of r 2 = Ok (if (r mod 4 <? 2)%Z then 1%Z else (-1)%Z))
  /\ (forall r : Z, (0 <= r < L)%Z -> sign_of r L = Ok 1%Z).
Proof.
  intros HL Hmask Hproj. split; [|split; [|split]].
  - destruct (magmom_of_spec natoms proj mask tol L M)
      as (planes & magmom & Hc & Hm & _ & Hset & _); [lia|exact Hmask|exact Hproj|].
    exists planes, magmom. split; [exact Hc|]. split; [exact Hm|].
    intros r kv idx Hr Hidx. split.
    + rewrite sign_of_nonzero by lia. reflexivity.
    + apply (Hset r kv idx Hr Hidx).
  - intros r. rewrite sign_of_nonzero by lia. now rewrite block_sign_one.
  - intros r. rewrite sign_of_nonzero by lia. now rewrite block_sign_two.
  - intros r Hr. rewrite sign_of_nonzero by lia.
    now rewrite block_sign_first_block.
Qed.

End Signs.

Section SignExamples.
Local Open Scope nat_scope.

Lemma block_signs_witness :
  exists planes magmom,
    cluster 0.02%float [true; true; true; true] [0; 0; 5; 5]%float = Ok planes
    /\ magmom_of 4 [0; 0; 5; 5]%float [true; true; true; true]
         0.02%float 1 1%float = Ok magmom
    /\ forall r kv idx,
         ordered planes !! r = Some kv -> idx ∈ members kv ->
         sign_of (Z.of_nat r) 1
           = Ok (if ((Z.of_nat r / 1) mod 2 =? 0)%Z then 1%Z else (-1)%Z)
         /\ magmom !! idx
            = Some (fmul (of_int (if ((Z.of_nat r / 1) mod 2 =? 0)%Z
                                  then 1%Z else (-1)%Z)) 1%float).
Proof.
  refine (proj1 (block_signs 4 [0; 0; 5; 5]%float [true; true; true; true]
                   0.02%float 1 1%float _ eq_refl eq_refl)).
  lia.
Defined.

End SignExamples.

(* ================================================================== *)
(** * Inputs the script does not validate *)

Section Unvalidated.
Context {F : Type} `{Num F}.
Local Open Scope nat_scope.

Implicit Types (planes l : plane_dict (F:=F)) (M tol : F) (L : Z).

Lemma selected_atoms_in_range (mask : list bool) (proj : list F) :
  length mask = length proj ->
  Forall (fun ip => fst ip < length mask) (enumerate proj).
Proof. intros Hlen. apply enumerate_in_range. lia. Qed.

(** C7. A block size below 1 is not refused. With [L = 0] the division
    [plane_id//L] raises ZeroDivisionError at the first plane, and with
    no plane nothing is raised and every moment is 0. With [L < 0]
    nothing is raised: the plane of rank [r] gets the sign +1 when
    [(r // L) % 2 == 0] (floor division) and -1 otherwise, and its atoms
    the moment sign * M. *)
Theorem block_size_below_one (natoms : nat) (proj : list F)
    (mask : list bool) tol L M :
  (L < 1)%Z -> length mask = length proj -> length proj = natoms ->
  (L = 0%Z ->
   exists planes,
     cluster tol mask proj = Ok planes
     /\ magmom_of natoms proj mask tol L M
        = match planes with
          | [] => Ok (replicate natoms fzero)
          | _ :: _ => Raise ZeroDivisionError
          end)
  /\ ((L < 0)%Z ->
      exists planes magmom,
        cluster tol mask proj = Ok planes
        /\ magmom_of natoms proj mask tol L M = Ok magmom
        /\ forall r kv idx,
             ordered planes !! r = Some kv -> idx ∈ members kv ->
             magmom !! idx
             = Some (fmul (of_int (if ((Z.of_nat r / L) mod 2 =? 0)%Z
                                   then 1%Z else (-1)%Z)) M)).
Proof.
  intros HL Hmask Hproj. split.
  - intros ->. destruct (cluster_total tol mask proj) as [planes Hc]; [lia|].
    exists planes. split; [exact Hc|]. unfold magmom_of. rewrite Hc. cbn.
    unfold assign_signs. pose proof (ordered_perm planes) as Hperm.
    destruct planes as [|kv planes].
    + reflexivity.
    + destruct (ordered (kv :: planes)) as [|[k [ref idxs]] rest] eqn:Ho.
      * apply Permutation_nil_l in Hperm. discriminate.
      * reflexivity.
  - intros Hneg.
    destruct (magmom_of_spec natoms proj mask tol L M)
      as (planes & magmom & Hc & Hm & _ & Hset & _); [lia|exact Hmask|exact Hproj|].
    exists planes, magmom. auto.
Qed.

(** C8. A tolerance that is zero or negative is not refused: no
    projection is within tolerance of any reference value, so every
    selected atom becomes a plane of its own, in structural order, and
    the sign assignment goes on as usual. *)
Theorem nonpositive_tolerance (natoms : nat) (proj : list F)
    (mask : list bool) tol L M :
  AbsLaw -> fleb tol fzero = true -> length mask = length proj ->
  cluster tol mask proj = Ok (singletons 0 (selected_atoms mask proj))
  /\ (L <> 0%Z -> length proj = natoms ->
      exists magmom, magmom_of natoms proj mask tol L M = Ok magmom).
Proof.
  intros Habs Htol Hmask. split.
  - unfold cluster.
    rewrite cluster_loop_never_close;
      [reflexivity|apply keys_ok_nil|now apply selected_atoms_in_range|].
    apply Forall_forall. intros ip _ ref. unfold close. now apply Habs.
  - intros HL Hproj.
    destruct (magmom_of_spec natoms proj mask tol L M HL Hmask Hproj)
      as (planes & magmom & _ & Hm & _). eauto.
Qed.

(** C6. A direction that resolves to the zero vector is not refused.
    Its norm is 0, the division by the norm gives NaN in every component
    of [n_hat], every projection is NaN, no projection is within
    tolerance of a reference value, and every selected atom becomes a
    plane of its own. *)
Theorem zero_direction_projects_nan (nan : F) (n_vec : vec3)
    (lattice : mat3) (frac : list vec3) (mask : list bool) tol :
  NanLaws nan ->
  (let '(x, y, z) := n_cart n_vec lattice in
   is_zero x && is_zero y && is_zero z = true) ->
  length mask = length frac ->
  norm (n_cart n_vec lattice) = fzero
  /\ n_hat n_vec lattice = (nan, nan, nan)
  /\ projections n_vec lattice frac = map (fun _ => nan) frac
  /\ cluster tol mask (projections n_vec lattice frac)
     = Ok (singletons 0
             (selected_atoms mask (projections n_vec lattice frac))).
Proof.
  intros Hnan Hzero Hmask.
  destruct (n_cart n_vec lattice) as [[x y] z] eqn:Hcart.
  apply andb_prop in Hzero as [Hzero Hz]. apply andb_prop in Hzero as [Hx Hy].
  assert (norm (x, y, z) = fzero) as Hnorm.
  { unfold norm, dot3.
    rewrite !(mul_zero nan Hnan) by assumption.
    now rewrite !(add_zero nan Hnan), (sqrt_zero nan Hnan). }
  assert (n_hat n_vec lattice = (nan, nan, nan)) as Hhat.
  { unfold n_hat. rewrite Hcart, Hnorm. unfold vdiv.
    now rewrite !(div_zero nan Hnan) by assumption. }
  assert (projections n_vec lattice frac = map (fun _ => nan) frac) as Hproj.
  { unfold projections. rewrite Hhat, map_map. apply map_ext. intros c.
    destruct (vecmat c lattice) as [[a b] d]. unfold dot3.
    now rewrite !(mul_nan nan Hnan), !(add_nan_r nan Hnan). }
  split; [exact Hnorm|]. split; [exact Hhat|]. split; [exact Hproj|].
  unfold cluster.
  rewrite cluster_loop_never_close; [reflexivity|apply keys_ok_nil| |].
  - apply selected_atoms_in_range. rewrite Hproj, length_map. exact Hmask.
  - rewrite Hproj.
    apply (enumerate_from_snd (fun p => forall ref, close tol p ref = false)).
    apply Forall_forall. intros p Hp ref.
    apply list_elem_of_In, in_map_iff in Hp as (c & <- & _).
    unfold close.
    now rewrite (sub_nan nan Hnan), (abs_nan nan Hnan), (ltb_nan nan Hnan).
Qed.

End Unvalidated.

Section UnvalidatedExamples.
Local Open Scope nat_scope.

(** C7, counterexample: the block size -1 is below 1 and the signs are
    assigned all the same. *)
Lemma negative_block_size_assigns_signs :
  (-1 < 1)%Z
  /\ magmom_of 4 [0; 0; 5; 5]%float [true; true; true; true]
       0.02%float (-1) 1%float
     = Ok [1; 1; -1; -1]%float.
Proof. split; [lia|reflexivity]. Qed.

Lemma block_size_below_one_witness :
  exists planes magmom,
    cluster 0.02%float [true; true; true; true] [0; 0; 5; 5]%float = Ok planes
    /\ magmom_of 4 [0; 0; 5; 5]%float [true; true; true; true]
         0.02%float (-1) 1%float = Ok magmom
    /\ forall r kv idx,
         ordered planes !! r = Some kv -> idx ∈ members kv ->
         magmom !! idx
         = Some (fmul (of_int (if ((Z.of_nat r / -1) mod 2 =? 0)%Z
                               then 1%Z else (-1)%Z)) 1%float).
Proof.
  refine (proj2 (block_size_below_one 4 [0; 0; 5; 5]%float
                   [true; true; true; true] 0.02%float (-1) 1%float
                   _ eq_refl eq_refl) _); lia.
Defined.

(** C8, counterexample: with the tolerance 0 the clusterer runs, and two
    atoms of equal projection land in two planes. *)
Lemma zero_tolerance_runs_clusterer :
  PrimFloat.leb 0 0 = true
  /\ cluster 0%float [true; true] [0; 0]%float
     = Ok [(0, (0%float, [0])); (1, (0%float, [1]))]
  /\ magmom_of 2 [0; 0]%float [true; true] 0%float 1 1%float
     = Ok [1; -1]%float.
Proof. repeat split. Qed.

Lemma nonpositive_tolerance_witness :
  cluster (-1)%float [true; false; true] [0; 0; 0]%float
  = Ok [(0, (0%float, [0])); (1, (0%float, [2]))].
Proof.
  refine (proj1 (nonpositive_tolerance 3 [0; 0; 0]%float [true; false; true]
                   (-1)%float 1 1%float Binary64Facts.abs_law eq_refl eq_refl)).
Defined.

(** C6, counterexample: the direction [0,0,0] has norm 0, yet the
    projector returns projection values (NaN) and [main] goes on to
    assign moments. *)
Lemma zero_direction_is_not_refused :
  norm (n_cart (0, 0, 0)%float cubic10) = 0%float
  /\ projections (0, 0, 0)%float cubic10 four_atoms = [nan; nan; nan; nan]
  /\ main_core cubic10 four_atoms four_elems (0, 0, 0)%float "all"
       0.02%float 1 1%float
     = Ok [1; -1; 1; -1]%float.
Proof. repeat split. Qed.

Lemma zero_direction_projects_nan_witness :
  projections (0, 0, 0)%float cubic10 four_atoms
  = map (fun _ => nan) four_atoms.
Proof.
  refine (proj1 (proj2 (proj2 (zero_direction_projects_nan nan
    (0, 0, 0)%float cubic10 four_atoms [true; true; true; true] 0.02%float
    Binary64Facts.nan_laws eq_refl eq_refl)))).
Defined.

End UnvalidatedExamples.

(* ================================================================== *)
(** * The direction heuristic *)


(* ================================================================== *)
(** * The end-to-end scenarios of the spec *)

(** Four atoms at fractional z = 0, 0, 0.5, 0.5 in a cubic cell of
    10 angstrom, direction [0,0,1], tolerance 0.02, M = 1. *)
Example two_planes :
  cluster 0.02%float [true; true; true; true]
    (projections (0, 0, 1)%float cubic10 four_atoms)
  = Ok [(0%nat, (0%float, [0; 1]%nat)); (1%nat, (5%float, [2; 3]%nat))].
Proof. reflexivity. Qed.

Example scenario_L1 :
  main_core cubic10 four_atoms four_elems (0, 0, 1)%float "all"
    0.02%float 1 1%float
  = Ok [1; 1; -1; -1]%float.
Proof. reflexivity. Qed.

Example scenario_L2 :
  main_core cubic10 four_atoms four_elems (0, 0, 1)%float "all"
    0.02%float 2 1%float
  = Ok [1; 1; 1; 1]%float.
Proof. reflexivity. Qed.

Example scenario_no_atom_selected :
  main_core cubic10 four_atoms four_elems (0, 0, 1)%float "Ni"
    0.02%float 1 1%float
  = Ok [0; 0; 0; 0]%float.
Proof. reflexivity. Qed.

(** Two projections exactly [tol] apart land in different planes. *)
Example tolerance_boundary :
  cluster 0.5%float [true; true] [0; 0.5]%float
  = Ok [(0%nat, (0%float, [0%nat])); (1%nat, (0.5%float, [1%nat]))].
Proof. reflexivity. Qed.

(* ================================================================== *)
(** * More on the clusterer: what the planes hold *)

Section PlaneContents.
Context {F : Type} `{Num F}.
Local Open Scope nat_scope.

Implicit Types (planes l : plane_dict (F:=F)) (tol p ref : F).
Implicit Types (mask : list bool) (mem : list nat) (k i n : nat).

(** The first member of the plane [kv] has the reference value as its
    projection, and every later member a projection within tolerance of
    the reference value. *)
Definition plane_sound tol (proj : list F) (kv : nat * plane (F:=F)) : Prop :=
  exists first rest,
    members kv = first :: rest
    /\ proj !! first = Some (ref_of kv)
    /\ Forall (fun i => exists p, proj !! i = Some p
                                  /\ close tol p (ref_of kv) = true) rest.

(** The members of every plane are below [n] and increase, and the
    first members increase from each plane to the next. *)
Definition discovery_order n planes : Prop :=
  Forall (fun kv => members kv <> []
                    /\ Forall (fun i => i < n) (members kv)
                    /\ StronglySorted lt (members kv)) planes
  /\ StronglySorted lt (map (fun kv => hd 0 (members kv)) planes).

(** The first plane, in creation order, within tolerance of [p]. *)
Definition first_fit tol p planes : option (nat * plane (F:=F)) :=
  List.find (fun kv => close tol p (ref_of kv)) planes.

(** Every member whose projection is within tolerance of itself sits in
    the first plane within tolerance of its projection. *)
Definition at_first_fit tol (proj : list F) planes : Prop :=
  forall kv i p,
    kv ∈ planes -> i ∈ members kv -> proj !! i = Some p ->
    close tol p p = true ->
    exists kv', first_fit tol p planes = Some kv' /\ i ∈ members kv'.

(** An invariant of the loop that depends on the number of atoms seen:
    what holds at the start, survives a skipped atom and survives the
    loop body on a selected atom, holds at the end. *)
Lemma cluster_loop_counted (I : nat -> plane_dict (F:=F) -> Prop)
    tol mask (xs : list F) (start : nat) planes planes' :
  (forall j pl, I (start + j) pl -> I (S (start + j)) pl) ->
  (forall j p pl,
     xs !! j = Some p -> mask !! (start + j) = Some true ->
     I (start + j) pl -> I (S (start + j)) (cluster_step tol pl (start + j) p)) ->
  I start planes ->
  cluster_loop tol mask (enumerate_from start xs) planes = Ok planes' ->
  I (start + length xs) planes'.
Proof.
  revert start planes.
  induction xs as [|x xs IH]; intros start planes Hskip Hstep HI; cbn.
  - intros [= <-]. now rewrite Nat.add_0_r.
  - replace (start + S (length xs)) with (S start + length xs) by lia.
    assert (forall j pl, I (S start + j) pl -> I (S (S start + j)) pl) as Hskip'.
    { intros j pl. replace (S start + j) with (start + S j) by lia.
      apply Hskip. }
    assert (forall j p pl,
              xs !! j = Some p -> mask !! (S start + j) = Some true ->
              I (S start + j) pl ->
              I (S (S start + j)) (cluster_step tol pl (S start + j) p))
      as Hstep'.
    { intros j p pl. replace (S start + j) with (start + S j) by lia.
      apply (Hstep (S j)). }
    destruct (mask !! start) as [[|]|] eqn:Hm; [| |discriminate].
    + apply IH; [exact Hskip'|exact Hstep'|].
      specialize (Hstep 0 x planes). rewrite Nat.add_0_r in Hstep.
      now apply Hstep.
    + apply IH; [exact Hskip'|exact Hstep'|].
      specialize (Hskip 0 planes). rewrite Nat.add_0_r in Hskip.
      now apply Hskip.
Qed.

Lemma cluster_counted (I : nat -> plane_dict (F:=F) -> Prop)
    tol mask (proj : list F) planes :
  (forall n pl, I n pl -> I (S n) pl) ->
  (forall n p pl,
     proj !! n = Some p -> mask !! n = Some true ->
     I n pl -> I (S n) (cluster_step tol pl n p)) ->
  I 0 [] ->
  cluster tol mask proj = Ok planes ->
  I (length proj) planes.
Proof.
  intros Hskip Hstep HI Hc.
  apply (cluster_loop_counted I tol mask proj 0 [] planes); auto.
Qed.

(** X1. Every plane is sound: its reference value is the projection of
    its first member, and every other member joined it with a projection
    within tolerance of that reference value. *)
Theorem planes_within_tolerance tol mask (proj : list F) planes :
  cluster tol mask proj = Ok planes ->
  Forall (plane_sound tol proj) planes.
Proof.
  intros Hc.
  refine (proj2 (cluster_counted
    (fun _ pl => keys_ok pl /\ Forall (plane_sound tol proj) pl)
    tol mask proj planes _ _ _ Hc)).
  - auto.
  - intros n p pl Hp _ [Hk Hs]. split; [now apply cluster_step_keys|].
    destruct (cluster_step_cases tol pl n p Hk)
      as [(l1 & k & ref & mem & l2 & -> & _ & Hclose & ->)|[_ ->]].
    + apply Forall_app in Hs as [Hs1 Hs2].
      apply Forall_cons in Hs2 as [(first & rest & Hmem & Hfirst & Hrest) Hs2].
      apply Forall_app. split; [exact Hs1|]. constructor; [|exact Hs2].
      unfold members, ref_of in *. cbn in *. subst mem.
      exists first, (rest ++ [n]). split; [reflexivity|].
      split; [exact Hfirst|]. apply Forall_app. split; [exact Hrest|].
      constructor; [|constructor]. eauto.
    + apply Forall_app. split; [exact Hs|]. constructor; [|constructor].
      exists n, []. unfold members, ref_of. cbn. auto.
  - split; [apply keys_ok_nil|constructor].
Qed.

(** X2. Reference values keep their distance: the reference value of a
    plane is within tolerance of the reference value of no plane created
    before it. *)
Theorem references_apart tol mask (proj : list F) planes :
  cluster tol mask proj = Ok planes ->
  forall j k a b,
    j < k -> planes !! j = Some a -> planes !! k = Some b ->
    close tol (ref_of b) (ref_of a) = false.
Proof.
  intros Hc j k a b Hjk Ha Hb.
  assert (StronglySorted (fun r1 r2 => close tol r2 r1 = false)
            (map ref_of planes)) as Hs.
  { refine (proj2 (cluster_counted
      (fun _ pl => keys_ok pl /\
         StronglySorted (fun r1 r2 => close tol r2 r1 = false) (map ref_of pl))
      tol mask proj planes _ _ _ Hc)).
    - auto.
    - intros n p pl _ _ [Hk Hs]. split; [now apply cluster_step_keys|].
      destruct (cluster_step_cases tol pl n p Hk)
        as [(l1 & q & ref & mem & l2 & -> & _ & _ & ->)|[Hfar ->]].
      + rewrite map_app in *. exact Hs.
      + rewrite map_app. apply StronglySorted_app_2; [|exact Hs|].
        * intros r1 r2 Hr1 Hr2. apply list_elem_of_singleton in Hr2 as ->.
          apply list_elem_of_In, in_map_iff in Hr1 as (kv & <- & Hkv).
          rewrite Forall_forall in Hfar. apply Hfar. now apply list_elem_of_In.
        * repeat constructor.
    - split; [apply keys_ok_nil|constructor]. }
  apply (StronglySorted_lookup _ (map ref_of planes) j k (ref_of a) (ref_of b) Hs Hjk);
    now apply lookup_map_Some.
Qed.

End PlaneContents.

Section PlaneOrder.
Context {F : Type} `{Num F}.
Local Open Scope nat_scope.

Implicit Types (planes l : plane_dict (F:=F)) (tol p ref : F).
Implicit Types (mask : list bool) (mem : list nat) (k i n : nat).

Lemma discovery_order_mono n planes :
  discovery_order n planes -> discovery_order (S n) planes.
Proof.
  intros [Hm Hf]. split; [|exact Hf].
  eapply Forall_impl; [exact Hm|]. intros kv (Hne & Hlt & Hs).
  split; [exact Hne|]. split; [|exact Hs].
  eapply Forall_impl; [exact Hlt|]. intros i Hi. cbn in *. lia.
Qed.

Lemma StronglySorted_snoc_lt (xs : list nat) (n : nat) :
  Forall (fun i => i < n) xs -> StronglySorted lt xs ->
  StronglySorted lt (xs ++ [n]).
Proof.
  intros Hlt Hs. apply StronglySorted_app_2; [|exact Hs|repeat constructor].
  intros x1 x2 Hx1 Hx2. apply list_elem_of_singleton in Hx2 as ->.
  rewrite Forall_forall in Hlt. now apply Hlt.
Qed.

Lemma discovery_order_step tol n p planes :
  keys_ok planes -> discovery_order n planes ->
  discovery_order (S n) (cluster_step tol planes n p).
Proof.
  intros Hk [Hm Hf].
  destruct (cluster_step_cases tol planes n p Hk)
    as [(l1 & k & ref & mem & l2 & -> & _ & _ & ->)|[_ ->]].
  - pose proof (discovery_order_mono n _ (conj Hm Hf)) as [Hm' _].
    apply Forall_app in Hm as [_ Hm2]. apply Forall_cons in Hm2 as [Hx _].
    apply Forall_app in Hm' as [Hm1' Hm2'].
    apply Forall_cons in Hm2' as [_ Hm2'].
    unfold members in Hx. cbn in Hx. destruct Hx as (Hne & Hlt & Hs).
    split.
    + apply Forall_app. split; [exact Hm1'|]. constructor; [|exact Hm2'].
      unfold members. cbn. split; [now destruct mem|]. split.
      * apply Forall_app. split.
        -- eapply Forall_impl; [exact Hlt|]. intros i Hi. cbn in *. lia.
        -- repeat constructor.
      * now apply StronglySorted_snoc_lt.
    + rewrite map_app in *. cbn in *. unfold members in *. cbn in *.
      now destruct mem.
  - pose proof (discovery_order_mono n _ (conj Hm Hf)) as [Hm' _]. split.
    + apply Forall_app. split; [exact Hm'|]. constructor; [|constructor].
      unfold members. cbn. split; [discriminate|].
      split; repeat constructor.
    + rewrite map_app. cbn. apply StronglySorted_snoc_lt; [|exact Hf].
      apply Forall_forall. intros x Hx.
      apply list_elem_of_In, in_map_iff in Hx as (kv & <- & Hkv).
      rewrite Forall_forall in Hm.
      destruct (Hm kv) as (Hne & Hlt & _); [now apply list_elem_of_In|].
      destruct (members kv) as [|first rest]; [now contradiction Hne|].
      cbn. now apply Forall_cons in Hlt as [Hlt _].
Qed.

(** X3. Planes list atoms in discovery order: the members of every
    plane are atom indices below the number of atoms, in increasing
    order, and the first member of a plane is below the first member of
    every plane created after it. *)
Theorem planes_in_discovery_order tol mask (proj : list F) planes :
  cluster tol mask proj = Ok planes ->
  (forall kv, kv ∈ planes ->
     Forall (fun i => i < length proj) (members kv)
     /\ StronglySorted lt (members kv))
  /\ (forall j k a b first_a rest_a first_b rest_b,
        j < k -> planes !! j = Some a -> planes !! k = Some b ->
        members a = first_a :: rest_a -> members b = first_b :: rest_b ->
        first_a < first_b).
Proof.
  intros Hc.
  assert (discovery_order (length proj) planes) as [Hm Hf].
  { refine (proj2 (cluster_counted
      (fun n pl => keys_ok pl /\ discovery_order n pl)
      tol mask proj planes _ _ _ Hc)).
    - intros n pl [Hk Hd]. split; [exact Hk|now apply discovery_order_mono].
    - intros n p pl _ _ [Hk Hd]. split; [now apply cluster_step_keys|].
      now apply discovery_order_step.
    - split; [apply keys_ok_nil|]. split; constructor. }
  split.
  - intros kv Hkv. rewrite Forall_forall in Hm.
    destruct (Hm kv Hkv) as (_ & Hlt & Hs). auto.
  - intros j k a b first_a rest_a first_b rest_b Hjk Ha Hb Hma Hmb.
    pose proof (StronglySorted_lookup lt
      (map (fun kv => hd 0 (members kv)) planes) j k
      (hd 0 (members a)) (hd 0 (members b)) Hf Hjk) as Hlt.
    rewrite Hma, Hmb in Hlt. cbn in Hlt.
    apply Hlt.
    + now apply (lookup_map_Some (fun kv => hd 0 (members kv))) in Ha;
        rewrite Hma in Ha.
    + now apply (lookup_map_Some (fun kv => hd 0 (members kv))) in Hb;
        rewrite Hmb in Hb.
Qed.

(** ** Atoms of equal projection *)

Lemma first_fit_elem tol p planes kv :
  first_fit tol p planes = Some kv -> kv ∈ planes.
Proof.
  unfold first_fit. intros Hf. apply find_some in Hf as [Hin _].
  now apply list_elem_of_In.
Qed.

Lemma first_fit_app_found tol q l1 l2 kv :
  first_fit tol q l1 = Some kv -> first_fit tol q (l1 ++ l2) = Some kv.
Proof.
  unfold first_fit. induction l1 as [|x l1 IH]; cbn; [discriminate|].
  destruct (close tol q (ref_of x)); auto.
Qed.

Lemma first_fit_app_far tol q l1 l2 :
  Forall (far tol q) l1 -> first_fit tol q (l1 ++ l2) = first_fit tol q l2.
Proof.
  unfold first_fit. induction 1 as [|x l1 Hx _ IH]; cbn; [reflexivity|].
  unfold far in Hx. now rewrite Hx.
Qed.

Lemma first_fit_grow tol q l1 k ref mem (more : list nat) l2 kv :
  first_fit tol q (l1 ++ (k, (ref, mem)) :: l2) = Some kv ->
  exists kv',
    first_fit tol q (l1 ++ (k, (ref, mem ++ more)) :: l2) = Some kv'
    /\ (forall i, i ∈ members kv -> i ∈ members kv').
Proof.
  unfold first_fit. induction l1 as [|x l1 IH]; cbn.
  - unfold ref_of. cbn. destruct (close tol q ref).
    + intros [= <-]. eexists. split; [reflexivity|].
      intros i Hi. unfold members in *. cbn in *.
      apply elem_of_app. now left.
    + intros Hf. exists kv. auto.
  - destruct (close tol q (ref_of x)).
    + intros [= <-]. exists x. auto.
    + exact IH.
Qed.

(** The loop body keeps the first plane within tolerance of a
    projection [q], and that plane keeps its members. *)
Lemma first_fit_step tol planes n p q kv :
  keys_ok planes ->
  first_fit tol q planes = Some kv ->
  exists kv',
    first_fit tol q (cluster_step tol planes n p) = Some kv'
    /\ (forall i, i ∈ members kv -> i ∈ members kv').
Proof.
  intros Hk Hf.
  destruct (cluster_step_cases tol planes n p Hk)
    as [(l1 & k & ref & mem & l2 & -> & _ & _ & ->)|[_ ->]].
  - now apply first_fit_grow.
  - exists kv. split; [|auto]. now apply first_fit_app_found.
Qed.

(** The loop body puts the atom into the first plane within tolerance
    of its projection, when the projection is within tolerance of
    itself. *)
Lemma first_fit_new_member tol planes n p :
  keys_ok planes -> close tol p p = true ->
  exists kv',
    first_fit tol p (cluster_step tol planes n p) = Some kv'
    /\ n ∈ members kv'.
Proof.
  intros Hk Hpp.
  destruct (cluster_step_cases tol planes n p Hk)
    as [(l1 & k & ref & mem & l2 & -> & Hfar & Hclose & ->)|[Hfar ->]].
  - exists (k, (ref, mem ++ [n])). split.
    + rewrite first_fit_app_far by exact Hfar.
      unfold first_fit, ref_of. cbn. now rewrite Hclose.
    + unfold members. cbn. apply elem_of_app. right. left.
  - exists (length planes, (p, [n])). split.
    + rewrite first_fit_app_far by exact Hfar.
      unfold first_fit, ref_of. cbn. now rewrite Hpp.
    + unfold members. cbn. left.
Qed.

Lemma at_first_fit_step tol (proj : list F) planes n p :
  keys_ok planes -> proj !! n = Some p ->
  at_first_fit tol proj planes ->
  at_first_fit tol proj (cluster_step tol planes n p).
Proof.
  intros Hk Hp Hat kv i q Hkv Hi Hq Hqq.
  assert (i = n /\ q = p \/ exists kv0, kv0 ∈ planes /\ i ∈ members kv0)
    as [[-> ->]|(kv0 & Hkv0 & Hi0)].
  { destruct (cluster_step_cases tol planes n p Hk)
      as [(l1 & k & ref & mem & l2 & -> & _ & _ & Hstep)|[_ Hstep]];
      rewrite Hstep in Hkv.
    - apply elem_of_app in Hkv as [Hkv|Hkv].
      + right. exists kv. split; [|exact Hi]. apply elem_of_app. now left.
      + apply elem_of_cons in Hkv as [->|Hkv].
        * unfold members in Hi. cbn in Hi.
          apply elem_of_app in Hi as [Hi|Hi].
          -- right. exists (k, (ref, mem)). split; [|exact Hi].
             apply elem_of_app. right. left.
          -- apply list_elem_of_singleton in Hi as ->. left.
             split; [reflexivity|congruence].
        * right. exists kv. split; [|exact Hi].
          apply elem_of_app. right. now right.
    - apply elem_of_app in Hkv as [Hkv|Hkv].
      + right. eauto.
      + apply list_elem_of_singleton in Hkv as ->.
        unfold members in Hi. cbn in Hi.
        apply list_elem_of_singleton in Hi as ->. left.
        split; [reflexivity|congruence]. }
  - now apply first_fit_new_member.
  - destruct (Hat kv0 i q Hkv0 Hi0 Hq Hqq) as (kv1 & Hf & Hi1).
    destruct (first_fit_step tol planes n p q kv1 Hk Hf) as (kv' & Hf' & Hsub).
    exists kv'. auto.
Qed.

(** X4. Atoms of equal projection share a plane: two selected atoms
    whose projections are the same value, a value within tolerance of
    itself, are members of one plane, the first plane within tolerance
    of that value. *)
Theorem equal_projections_share_plane tol mask (proj : list F) planes
    i j p :
  cluster tol mask proj = Ok planes ->
  length mask = length proj ->
  mask !! i = Some true -> mask !! j = Some true ->
  proj !! i = Some p -> proj !! j = Some p ->
  close tol p p = true ->
  exists kv,
    first_fit tol p planes = Some kv
    /\ kv ∈ planes /\ i ∈ members kv /\ j ∈ members kv.
Proof.
  intros Hc Hlen Hmi Hmj Hpi Hpj Hpp.
  assert (at_first_fit tol proj planes) as Hat.
  { refine (proj2 (cluster_counted
      (fun _ pl => keys_ok pl /\ at_first_fit tol proj pl)
      tol mask proj planes _ _ _ Hc)).
    - auto.
    - intros n q pl Hq _ [Hk Hat]. split; [now apply cluster_step_keys|].
      now apply at_first_fit_step.
    - split; [apply keys_ok_nil|]. intros kv n q Hkv. inversion Hkv. }
  pose proof (cluster_members tol mask proj planes Hlen Hc) as Hperm.
  assert (forall n, mask !! n = Some true ->
            exists kv, kv ∈ planes /\ n ∈ members kv) as Hin.
  { intros n Hn. apply selected_spec in Hn. rewrite <- Hperm in Hn.
    apply elem_of_concat in Hn as (m & Hn & Hm).
    apply list_elem_of_In, in_map_iff in Hm as (kv & <- & Hkv).
    exists kv. split; [now apply list_elem_of_In|exact Hn]. }
  destruct (Hin i Hmi) as (kvi & Hkvi & Hi).
  destruct (Hin j Hmj) as (kvj & Hkvj & Hj).
  destruct (Hat kvi i p Hkvi Hi Hpi Hpp) as (kv & Hf & Hi').
  destruct (Hat kvj j p Hkvj Hj Hpj Hpp) as (kv' & Hf' & Hj').
  rewrite Hf in Hf'. injection Hf' as <-.
  exists kv. split; [exact Hf|]. split; [|auto].
  now apply first_fit_elem in Hf.
Qed.

(** X5. There are at most as many planes as selected atoms, and no
    plane is empty. *)
Theorem planes_at_most_selected tol mask (proj : list F) planes :
  cluster tol mask proj = Ok planes ->
  length mask = length proj ->
  Forall (fun kv => members kv <> []) planes
  /\ length planes <= length (selected mask)
  /\ length (selected mask) <= length proj.
Proof.
  intros Hc Hlen.
  assert (Forall (fun kv => members kv <> []) planes) as Hne.
  { eapply cluster_loop_nonempty; [apply keys_ok_nil|constructor|exact Hc]. }
  split; [exact Hne|]. split.
  - rewrite <- (cluster_members tol mask proj planes Hlen Hc).
    unfold all_members. clear Hc. induction Hne as [|kv pl Hkv _ IH]; cbn.
    + lia.
    + rewrite length_app. destruct (members kv); [now contradiction Hkv|].
      cbn. lia.
  - unfold selected. rewrite <- Hlen.
    etransitivity; [apply length_filter|]. now rewrite length_seq.
Qed.

End PlaneOrder.

Section PlaneExamples.
Local Open Scope nat_scope.

(** Five atoms, the second outside the mask; tolerance 0.5. *)
Definition five_proj : list float := [0; 3; 0.25; 3.25; 0]%float.
Definition five_mask : list bool := [true; false; true; true; true].
Definition five_planes : plane_dict (F:=float) :=
  [(0, (0%float, [0; 2; 4])); (1, (3.25%float, [3]))].

Lemma planes_within_tolerance_witness :
  Forall (plane_sound 0.5%float five_proj) five_planes.
Proof.
  exact (planes_within_tolerance 0.5%float five_mask five_proj five_planes
           eq_refl).
Defined.

Lemma references_apart_witness :
  close 0.5%float 3.25%float 0%float = false.
Proof.
  exact (references_apart 0.5%float five_mask five_proj five_planes eq_refl
           0 1 (0, (0%float, [0; 2; 4])) (1, (3.25%float, [3]))
           (le_n 1) eq_refl eq_refl).
Defined.

Lemma planes_in_discovery_order_witness :
  Forall (fun kv => Forall (fun i => i < 5) (members kv)
                    /\ StronglySorted lt (members kv)) five_planes.
Proof.
  exact (proj2 (Forall_forall _ _)
           (proj1 (planes_in_discovery_order 0.5%float five_mask five_proj
                     five_planes eq_refl))).
Defined.

Lemma equal_projections_share_plane_witness :
  exists kv,
    first_fit 0.5%float 0%float five_planes = Some kv
    /\ kv ∈ five_planes /\ 0 ∈ members kv /\ 4 ∈ members kv.
Proof.
  exact (equal_projections_share_plane 0.5%float five_mask five_proj
           five_planes 0 4 0%float eq_refl eq_refl eq_refl eq_refl eq_refl
           eq_refl eq_refl).
Defined.

Lemma planes_at_most_selected_witness :
  Forall (fun kv => members kv <> []) five_planes
  /\ length five_planes <= length (selected five_mask)
  /\ length (selected five_mask) <= length five_proj.
Proof.
  exact (planes_at_most_selected 0.5%float five_mask five_proj five_planes
           eq_refl eq_refl).
Defined.

End PlaneExamples.

(* ================================================================== *)
(** * More on the moments *)

Section Moments.
Context {F : Type} `{Num F}.
Local Open Scope nat_scope.

(** X6. For a block size that is not zero [main] returns one moment per
    atom: 0 for an atom outside the mask, and M or -M (as [1 * M] and
    [-1 * M]) for an atom inside it. *)
Theorem moments_zero_or_signed (natoms : nat) (proj : list F)
    (mask : list bool) (tol : F) (L : Z) (M : F) :
  L <> 0%Z -> length mask = length proj -> length proj = natoms ->
  exists magmom,
    magmom_of natoms proj mask tol L M = Ok magmom
    /\ length magmom = natoms
    /\ (forall idx, idx < natoms -> mask !! idx <> Some true ->
          magmom !! idx = Some fzero)
    /\ (forall idx, mask !! idx = Some true ->
          magmom !! idx = Some (fmul (of_int 1) M)
          \/ magmom !! idx = Some (fmul (of_int (-1)) M)).
Proof.
  intros HL Hmask Hproj.
  destruct (magmom_of_spec natoms proj mask tol L M HL Hmask Hproj)
    as (planes & magmom & Hc & Hm & Hlen & Hset & Hzero).
  exists magmom. split; [exact Hm|]. split; [exact Hlen|].
  split; [exact Hzero|].
  intros idx Hsel.
  pose proof (cluster_members tol mask proj planes Hmask Hc) as Hperm.
  apply selected_spec in Hsel. rewrite <- Hperm in Hsel.
  apply elem_of_concat in Hsel as (m & Hidx & Hmem).
  apply list_elem_of_In, in_map_iff in Hmem as (kv & <- & Hkv).
  apply list_elem_of_In in Hkv. rewrite <- (ordered_perm planes) in Hkv.
  apply list_elem_of_lookup in Hkv as [r Hr].
  rewrite (Hset r kv idx Hr Hidx). unfold block_sign.
  destruct (_ =? 0)%Z; auto.
Qed.

End Moments.

Section MomentExamples.
Local Open Scope nat_scope.

Lemma moments_zero_or_signed_witness :
  exists magmom,
    magmom_of 5 five_proj five_mask 0.5%float 1 2%float = Ok magmom
    /\ length magmom = 5.
Proof.
  destruct (moments_zero_or_signed 5 five_proj five_mask 0.5%float 1 2%float)
    as (magmom & Hm & Hlen & _); [lia|reflexivity|reflexivity|].
  exists magmom. split; [exact Hm|exact Hlen].
Defined.

End MomentExamples.

(* ================================================================== *)
(** * More on the atom selection *)

Section SelectionMore.
Local Open Scope nat_scope.

Lemma np_set_true_length (mask mask' : list bool) (idx : list Z) :
  np_set_true mask idx = Ok mask' -> length mask' = length mask.
Proof.
  unfold np_set_true.
  destruct (traverse (np_index (length mask)) idx) as [js|e]; cbn;
    [|discriminate].
  intros [= <-]. apply length_set_true.
Qed.

(** X7. Whatever the specifier, a mask that [parse_atom_selection]
    returns has one entry per atom. *)
Theorem selection_mask_length (atom_str : string) (elems : list string)
    (mask : list bool) :
  parse_atom_selection atom_str elems = Ok mask ->
  length mask = length elems.
Proof.
  unfold parse_atom_selection.
  destruct (String.eqb (Text.lower atom_str) "all").
  - intros [= <-]. apply length_replicate.
  - destruct (forallb Text.isdigit (Text.split atom_str)).
    + destruct (traverse _ (Text.split atom_str)) as [idx|e]; cbn;
        [|discriminate].
      intros Hset. apply np_set_true_length in Hset.
      now rewrite Hset, length_replicate.
    + intros [= <-]. apply length_map.
Qed.

Lemma selection_mask_length_witness :
  length [true; false; true] = length ["Fe"; "Ni"; "Fe"]%string.
Proof.
  exact (selection_mask_length "1 3" ["Fe"; "Ni"; "Fe"]%string
           [true; false; true] eq_refl).
Defined.


(** Two lists of booleans of one length with [True] at the same
    positions are equal. *)
Lemma bool_list_ext (xs ys : list bool) :
  length xs = length ys ->
  (forall i, xs !! i = Some true <-> ys !! i = Some true) ->
  xs = ys.
Proof.
  revert ys. induction xs as [|x xs IH]; intros [|y ys] Hlen Hext;
    try discriminate; [reflexivity|].
  f_equal.
  - specialize (Hext 0). cbn in Hext. destruct x, y; try reflexivity.
    + pose proof (proj1 Hext eq_refl). discriminate.
    + pose proof (proj2 Hext eq_refl). discriminate.
  - apply IH; [now injection Hlen|]. intros i. apply (Hext (S i)).
Qed.

(** X9. A list of indices between 1 and the number of atoms selects
    exactly the listed atoms; so two such lists with the same indices,
    in any order and with any repetitions, give the same mask. *)
Theorem index_list_selects_listed_atoms (atom_str atom_str' : string)
    (elems : list string) (values values' : list Z) :
  Text.lower atom_str <> "all"%string ->
  numerals (Text.split atom_str) values ->
  Forall (fun v => (1 <= v <= Z.of_nat (length elems))%Z) values ->
  (exists mask,
     parse_atom_selection atom_str elems = Ok mask
     /\ length mask = length elems
     /\ forall i, mask !! i = Some true <->
          (i < length elems /\ Z.of_nat (S i) ∈ values))
  /\ (Text.lower atom_str' <> "all"%string ->
      numerals (Text.split atom_str') values' ->
      (forall v, v ∈ values <-> v ∈ values') ->
      parse_atom_selection atom_str' elems
      = parse_atom_selection atom_str elems).
Proof.
  intros Hall Hn Hrange.
  destruct (indices_in_range atom_str elems values Hall Hn Hrange)
    as (mask & Hp & Hlen & Hspec).
  split; [eauto|].
  intros Hall' Hn' Hsame.
  assert (Forall (fun v => (1 <= v <= Z.of_nat (length elems))%Z) values')
    as Hrange'.
  { rewrite Forall_forall in *. intros v Hv. apply Hrange, Hsame, Hv. }
  destruct (indices_in_range atom_str' elems values' Hall' Hn' Hrange')
    as (mask' & Hp' & Hlen' & Hspec').
  rewrite Hp, Hp'. f_equal. apply bool_list_ext; [congruence|].
  intros i. rewrite Hspec, Hspec'. now rewrite Hsame.
Qed.

Lemma index_list_selects_listed_atoms_witness :
  parse_atom_selection "3 1 3" ["Fe"; "Ni"; "Fe"]%string
  = parse_atom_selection "1 3" ["Fe"; "Ni"; "Fe"]%string.
Proof.
  refine (proj2 (index_list_selects_listed_atoms "1 3" "3 1 3"
    ["Fe"; "Ni"; "Fe"]%string [1; 3]%Z [3; 1; 3]%Z _ _ _) _ _ _).
  - discriminate.
  - repeat constructor.
  - repeat constructor; cbn; lia.
  - discriminate.
  - repeat constructor.
  - intros v. rewrite !elem_of_cons, !elem_of_nil. tauto.
Defined.

(** X10. [int] refuses what [isdigit] accepts: when every token is a
    digit string and one of them holds a character that is no decimal
    digit (a superscript two, three or one), the selection raises
    ValueError, whatever the indices of the other tokens. *)
Theorem superscript_index_raises (atom_str : string) (elems : list string) :
  Text.lower atom_str <> "all"%string ->
  forallb Text.isdigit (Text.split atom_str) = true ->
  Exists (fun x => Text.all_chars Text.isdecimal_char x = false)
    (Text.split atom_str) ->
  parse_atom_selection atom_str elems = Raise ValueError.
Proof.
  intros Hall Hdigits Hex. unfold parse_atom_selection.
  apply String.eqb_neq in Hall. rewrite Hall, Hdigits.
  rewrite (traverse_Raise _ _ ValueError); [reflexivity| |].
  - eapply Exists_impl; [exact Hex|]. intros x Hx. cbn in *.
    unfold Text.py_int. rewrite Hx. now destruct x.
  - apply Forall_forall. intros x _ e'. unfold Text.py_int.
    destruct x as [|c x]; cbn; [congruence|].
    destruct (Text.isdecimal_char c && Text.all_chars Text.isdecimal_char x);
      cbn; congruence.
Qed.

(** The token made of the superscript two (code point 178). *)
Definition superscript_two : string :=
  String (ascii_of_nat 178) EmptyString.

Lemma superscript_index_raises_witness :
  parse_atom_selection superscript_two ["Fe"; "Ni"]%string
  = Raise ValueError.
Proof.
  refine (superscript_index_raises superscript_two ["Fe"; "Ni"]%string _ _ _).
  - discriminate.
  - reflexivity.
  - left. reflexivity.
Defined.

End SelectionMore.

(* ================================================================== *)
(** * The selection written to run_parameters.txt *)

(** The part of [main] that turns the mask back into an atom selection
    for the command line that reproduces the run. *)

(** [np.all(mask)] *)
Definition np_all (mask : list bool) : bool := forallb id mask.

(** [s.add(e)], the set being a list without repetition. *)
Definition set_add (e : string) (s : list string) : list string :=
  if str_in e s then s else s ++ [e].

(** [for i, selected in enumerate(mask): if selected:
    selected_elements.add(elems[i])] *)
Fixpoint selected_elements_loop (elems : list string)
    (entries : list (nat * bool)) (acc : list string)
  : result (list string) :=
  match entries with
  | [] => Ok acc
  | (i, selected) :: rest =>
      if selected then
        match elems !! i with
        | Some e => selected_elements_loop elems rest (set_add e acc)
        | None => Raise IndexError
        end
      else selected_elements_loop elems rest acc
  end.

(** [sorted(s)] for strings, compared by code points. The members of a
    set are distinct, so the order in which the set yields them does not
    show in the result. *)
Fixpoint insert_str (x : string) (l : list string) : list string :=
  match l with
  | [] => [x]
  | y :: l' =>
      if String.ltb x y then x :: y :: l' else y :: insert_str x l'
  end.

Definition sorted_str (l : list string) : list string :=
  foldl (fun acc x => insert_str x acc) [] l.

(** [" ".join(l)] *)
Fixpoint join_space (l : list string) : string :=
  match l with
  | [] => EmptyString
  | [x] => x
  | x :: rest => x ++ String " " (join_space rest)
  end.

(** [str(n)] for an integer that is not negative. *)
Definition str_of_nat (n : nat) : string :=
  DecimalString.NilEmpty.string_of_uint (Nat.to_uint n).

(** The value of [atoms_str] in [main]. *)
Definition atoms_str (mask : list bool) (elems : list string)
  : result string :=
  if np_all mask then Ok "all"%string
  else
    selected_elements ← selected_elements_loop elems (enumerate mask) [];
    let element_mask := map (fun e => str_in e selected_elements) elems in
    if bool_decide (mask = element_mask)
    then Ok (join_space (sorted_str selected_elements))
    else
      let indices :=
        map (fun im => str_of_nat (fst im + 1))
            (filter (fun im => snd im = true) (enumerate mask)) in
      Ok (join_space indices).

(** A token: not empty and free of white space, as [split] yields them. *)
Definition is_token (t : string) : Prop :=
  t <> EmptyString
  /\ Text.all_chars (fun c => negb (Text.isspace c)) t = true.

(** An element label that [parse_atom_selection] reads as a label: a
    token that is neither a digit string nor the word all in any case. *)
Definition is_label (e : string) : Prop :=
  is_token e
  /\ Text.isdigit e = false
  /\ Text.lower e <> "all"%string.

Section ReproExamples.
Local Open Scope nat_scope.
Local Open Scope string_scope.

Example atoms_str_all :
  atoms_str [true; true; true] ["Fe"; "Ni"; "Fe"] = Ok "all".
Proof. reflexivity. Qed.

Example atoms_str_elements :
  atoms_str [true; true; false; true] ["Ni"; "Fe"; "O"; "Fe"] = Ok "Fe Ni".
Proof. reflexivity. Qed.

Example atoms_str_indices :
  atoms_str [true; false; false; true] ["Fe"; "Fe"; "O"; "O"] = Ok "1 4".
Proof. reflexivity. Qed.

Example atoms_str_none :
  atoms_str [false; false] ["Fe"; "O"] = Ok EmptyString.
Proof. reflexivity. Qed.

End ReproExamples.

Section Repro.
Local Open Scope nat_scope.

Implicit Types (s t cur : string) (ts : list string) (mask : list bool).

(** ** Strings *)

Lemma str_app_nil_r s : (s ++ EmptyString)%string = s.
Proof. induction s as [|c s IH]; cbn; [reflexivity|now rewrite IH]. Qed.

Lemma str_app_assoc s t u :
  ((s ++ t) ++ u)%string = (s ++ (t ++ u))%string.
Proof. induction s as [|c s IH]; cbn; [reflexivity|now rewrite IH]. Qed.

(** [split] reads a token in one go. *)
Lemma split_from_token cur t rest :
  Text.all_chars (fun c => negb (Text.isspace c)) t = true ->
  Text.split_from cur (t ++ rest)%string
  = Text.split_from (cur ++ t)%string rest.
Proof.
  revert cur. induction t as [|c t IH]; intros cur Ht; cbn.
  - now rewrite str_app_nil_r.
  - cbn in Ht. apply andb_prop in Ht as [Hc Ht].
    apply negb_true_iff in Hc. rewrite Hc, (IH _ Ht), str_app_assoc.
    reflexivity.
Qed.

Lemma split_from_space cur s :
  cur <> EmptyString ->
  Text.split_from cur (String " " s) = cur :: Text.split_from EmptyString s.
Proof. intros Hcur. now destruct cur. Qed.

(** [split] undoes [" ".join] on tokens. *)
Lemma split_join ts :
  Forall is_token ts -> Text.split (join_space ts) = ts.
Proof.
  induction 1 as [|t ts [Hne Ht] Hts IH]; [reflexivity|].
  unfold Text.split in *. destruct ts as [|t' ts].
  - cbn [join_space].
    rewrite <- (str_app_nil_r t) at 1. rewrite (split_from_token _ _ _ Ht).
    cbn. now destruct t.
  - change (join_space (t :: t' :: ts))
      with (t ++ String " " (join_space (t' :: ts)))%string.
    rewrite (split_from_token _ _ _ Ht). cbn [append].
    rewrite (split_from_space _ _ Hne). now rewrite IH.
Qed.

Lemma lower_app s t :
  Text.lower (s ++ t)%string = (Text.lower s ++ Text.lower t)%string.
Proof. induction s as [|c s IH]; cbn; [reflexivity|now rewrite IH]. Qed.

(** A string with a space in it is not the word all. *)
Lemma lower_space_not_all s t :
  Text.lower (s ++ String " " t)%string <> "all"%string.
Proof.
  rewrite lower_app. cbn [Text.lower].
  change (Text.lower_char " ") with " "%char.
  destruct (Text.lower s) as [|c1 [|c2 [|c3 [|c4 u]]]]; cbn; congruence.
Qed.

Lemma lower_char_a_not_digit (c : ascii) :
  Text.lower_char c = "a"%char -> Text.isdigit_char c = false.
Proof.
  destruct c as [[] [] [] [] [] [] [] []]; vm_compute;
    intros; try reflexivity; discriminate.
Qed.

(** A digit string is not the word all. *)
Lemma lower_digits_not_all s :
  Text.isdigit s = true -> Text.lower s <> "all"%string.
Proof.
  destruct s as [|c s]; [discriminate|]. cbn. intros Hd Heq.
  apply andb_prop in Hd as [Hc _].
  injection Heq as Hc' _. apply lower_char_a_not_digit in Hc'. congruence.
Qed.

Lemma lower_join_not_all ts :
  Forall (fun t => Text.lower t <> "all"%string) ts ->
  Text.lower (join_space ts) <> "all"%string.
Proof.
  intros Hts. destruct Hts as [|t ts Ht Hts]; [discriminate|].
  destruct ts as [|t' ts]; [exact Ht|].
  change (join_space (t :: t' :: ts))
    with (t ++ String " " (join_space (t' :: ts)))%string.
  apply lower_space_not_all.
Qed.

(** ** Decimal numerals *)

Lemma decimal_value_uint (d : Decimal.uint) (acc : Z) :
  (0 <= acc)%Z ->
  Text.decimal_value acc (DecimalString.NilEmpty.string_of_uint d)
  = Z.of_nat (Nat.of_uint_acc d (Z.to_nat acc)).
Proof.
  revert acc. induction d as [|d IH|d IH|d IH|d IH|d IH|d IH|d IH|d IH|d IH|d IH];
    intros acc Hacc; cbn [DecimalString.NilEmpty.string_of_uint
                          Text.decimal_value Nat.of_uint_acc];
    [lia|..];
    (rewrite IH by (vm_compute Text.digit_value; lia));
    rewrite Nat.tail_mul_spec; do 2 f_equal; vm_compute Text.digit_value; lia.
Qed.

Lemma uint_chars (P : ascii -> bool) (d : Decimal.uint) :
  Forall (fun c => P c = true)
    ["0"; "1"; "2"; "3"; "4"; "5"; "6"; "7"; "8"; "9"]%char ->
  Text.all_chars P (DecimalString.NilEmpty.string_of_uint d) = true.
Proof.
  intros HP. repeat (apply Forall_cons in HP as [? HP]).
  induction d; cbn; [reflexivity|rewrite IHd, andb_true_r; assumption..].
Qed.

Lemma to_uint_not_nil (n : nat) :
  DecimalString.NilEmpty.string_of_uint (Nat.to_uint n) <> EmptyString.
Proof.
  pose proof (DecimalNat.Unsigned.of_to n) as Hn.
  destruct (Nat.to_uint n) eqn:Hd; cbn; try discriminate.
  cbn in Hn. subst n. discriminate.
Qed.

(** [int(str(n))] is [n], and [str(n)] is a token of digits. *)
Lemma py_int_str_of_nat (n : nat) :
  Text.py_int (str_of_nat n) = Ok (Z.of_nat n).
Proof.
  unfold Text.py_int, str_of_nat.
  pose proof (to_uint_not_nil n) as Hne.
  destruct (DecimalString.NilEmpty.string_of_uint (Nat.to_uint n)) eqn:Hs;
    [now contradiction Hne|].
  rewrite <- Hs. rewrite uint_chars by (repeat constructor).
  rewrite decimal_value_uint by lia. do 2 f_equal.
  apply DecimalNat.Unsigned.of_to.
Qed.

Lemma str_of_nat_token (n : nat) : is_token (str_of_nat n).
Proof.
  split; [apply to_uint_not_nil|].
  apply uint_chars. repeat constructor.
Qed.

(** ** The set of selected elements *)

Lemma set_add_elem (e' e : string) (sel : list string) :
  e' ∈ set_add e sel <-> e' = e \/ e' ∈ sel.
Proof.
  unfold set_add. destruct (str_in e sel) eqn:He.
  - apply str_in_spec in He. split; [auto|]. now intros [->|].
  - rewrite elem_of_app, list_elem_of_singleton. tauto.
Qed.

Lemma selected_elements_loop_spec (elems : list string) (ms : list bool)
    (start : nat) (acc : list string) :
  start + length ms <= length elems ->
  exists sel,
    selected_elements_loop elems (enumerate_from start ms) acc = Ok sel
    /\ forall e, e ∈ sel <->
         e ∈ acc \/ exists j, ms !! j = Some true
                               /\ elems !! (start + j) = Some e.
Proof.
  revert start acc. induction ms as [|m ms IH]; intros start acc Hlen; cbn.
  - exists acc. split; [reflexivity|]. intros e. split; [auto|].
    intros [He|(j & Hj & _)]; [exact He|discriminate].
  - cbn in Hlen. destruct m.
    + destruct (lookup_lt_is_Some_2 elems start ltac:(lia)) as [e0 He0].
      rewrite He0.
      destruct (IH (S start) (set_add e0 acc) ltac:(lia)) as (sel & Hsel & Hspec).
      exists sel. split; [exact Hsel|]. intros e. rewrite Hspec, set_add_elem.
      split.
      * intros [[->|He]|(j & Hj & He)]; [right|now left|right].
        -- exists 0. rewrite Nat.add_0_r. auto.
        -- exists (S j). now replace (start + S j) with (S start + j) by lia.
      * intros [He|([|j] & Hj & He)]; [now left; right| |].
        -- rewrite Nat.add_0_r in He. left. left. congruence.
        -- right. exists j.
           now replace (S start + j) with (start + S j) by lia.
    + destruct (IH (S start) acc ltac:(lia)) as (sel & Hsel & Hspec).
      exists sel. split; [exact Hsel|]. intros e. rewrite Hspec. split.
      * intros [He|(j & Hj & He)]; [now left|right].
        exists (S j). now replace (start + S j) with (S start + j) by lia.
      * intros [He|([|j] & Hj & He)]; [now left|discriminate|].
        right. exists j.
        now replace (S start + j) with (start + S j) by lia.
Qed.

Lemma insert_str_perm (x : string) ts : insert_str x ts ≡ₚ x :: ts.
Proof.
  induction ts as [|y ts IH]; cbn; [reflexivity|].
  destruct (String.ltb x y); [reflexivity|].
  rewrite IH. apply Permutation_swap.
Qed.

Lemma sorted_str_perm ts : sorted_str ts ≡ₚ ts.
Proof.
  unfold sorted_str.
  induction ts as [|x ts IH] using rev_ind; [reflexivity|].
  rewrite foldl_snoc, insert_str_perm, IH. apply Permutation_cons_append.
Qed.

Lemma str_in_same (e : string) (xs ys : list string) :
  (forall x, x ∈ xs <-> x ∈ ys) -> str_in e xs = str_in e ys.
Proof.
  intros Hsame. apply eq_true_iff_eq. now rewrite !str_in_spec.
Qed.

Lemma elem_of_enumerate_from {A} (start i : nat) (x : A) (xs : list A) :
  (i, x) ∈ enumerate_from start xs <->
  exists j, i = start + j /\ xs !! j = Some x.
Proof.
  revert start. induction xs as [|y xs IH]; intros start; cbn.
  - split; [intros Hin; inversion Hin|]. intros (j & _ & Hj). discriminate.
  - rewrite elem_of_cons, IH. split.
    + intros [[= -> ->]|(j & -> & Hj)].
      * exists 0. split; [lia|reflexivity].
      * exists (S j). split; [lia|exact Hj].
    + intros ([|j] & -> & Hj).
      * left. cbn in Hj. injection Hj as ->. f_equal. lia.
      * right. exists j. split; [lia|exact Hj].
Qed.

Lemma np_all_replicate mask :
  np_all mask = true -> mask = replicate (length mask) true.
Proof.
  unfold np_all. induction mask as [|[|] mask IH]; cbn; try discriminate.
  - reflexivity.
  - intros Hm. now rewrite <- IH.
Qed.

(** The mask entries that are [True], with their positions. *)
Definition true_entries mask : list (nat * bool) :=
  filter (fun im => snd im = true) (enumerate mask).

Lemma true_entries_spec mask (i : nat) (b : bool) :
  (i, b) ∈ true_entries mask <-> b = true /\ mask !! i = Some true.
Proof.
  unfold true_entries, enumerate.
  rewrite list_elem_of_filter, elem_of_enumerate_from. cbn. split.
  - intros (-> & j & -> & Hj). auto.
  - intros (-> & Hi). split; [reflexivity|]. exists i. auto.
Qed.

(** The index list that [atoms_str] writes reads back as the mask. *)
Lemma index_list_reads_back mask (elems : list string) :
  length mask = length elems ->
  parse_atom_selection
    (join_space (map (fun im => str_of_nat (fst im + 1)) (true_entries mask)))
    elems
  = Ok mask.
Proof.
  intros Hlen.
  set (entries := true_entries mask).
  set (tokens := map (fun im => str_of_nat (fst im + 1)) entries).
  set (values := map (fun im : nat * bool => Z.of_nat (fst im + 1)) entries).
  assert (Forall is_token tokens) as Htokens.
  { apply Forall_forall. intros t Ht.
    apply list_elem_of_In, in_map_iff in Ht as (im & <- & _).
    apply str_of_nat_token. }
  assert (numerals (Text.split (join_space tokens)) values) as Hnum.
  { rewrite split_join by exact Htokens.
    unfold numerals, tokens, values, entries. clear.
    induction (true_entries mask) as [|im l IH]; cbn; constructor;
      [apply py_int_str_of_nat|exact IH]. }
  assert (Text.lower (join_space tokens) <> "all"%string) as Hlow.
  { apply lower_join_not_all, Forall_forall. intros t Ht.
    apply list_elem_of_In, in_map_iff in Ht as (im & <- & _).
    apply lower_digits_not_all.
    apply (py_int_isdigit _ _ (py_int_str_of_nat _)). }
  assert (forall v, v ∈ values <->
            exists i, v = Z.of_nat (S i) /\ mask !! i = Some true) as Hvalues.
  { intros v. unfold values. split.
    - intros Hv. apply list_elem_of_In, in_map_iff in Hv as ([i b] & <- & Him).
      apply list_elem_of_In, true_entries_spec in Him as [_ Hi].
      exists i. split; [cbn; f_equal; lia|exact Hi].
    - intros (i & -> & Hi). apply list_elem_of_In, in_map_iff.
      exists (i, true). split; [cbn; f_equal; lia|].
      apply list_elem_of_In, true_entries_spec. auto. }
  destruct (indices_in_range (join_space tokens) elems values Hlow Hnum)
    as (mask' & Hp & Hlen' & Hspec).
  { apply Forall_forall. intros v Hv. apply Hvalues in Hv as (i & -> & Hi).
    apply lookup_lt_Some in Hi. lia. }
  rewrite Hp. f_equal. apply bool_list_ext; [congruence|].
  intros i. rewrite Hspec, Hvalues. split.
  - intros (_ & j & Hj & Hm). now replace i with j by lia.
  - intros Hi. split; [apply lookup_lt_Some in Hi; lia|eauto].
Qed.

(** X11. The selection that [main] writes for reproducing a run selects
    the same atoms again: for element labels that
    [parse_atom_selection] reads as labels, [atoms_str] raises nothing
    and [parse_atom_selection] turns its value back into the mask. *)
Theorem atoms_str_reproduces_mask mask (elems : list string) :
  length mask = length elems ->
  Forall is_label elems ->
  exists s,
    atoms_str mask elems = Ok s
    /\ parse_atom_selection s elems = Ok mask.
Proof.
  intros Hlen Hlabels. unfold atoms_str.
  destruct (np_all mask) eqn:Hall.
  { exists "all"%string. split; [reflexivity|].
    unfold parse_atom_selection. cbn [Text.lower].
    change (String.eqb _ "all") with true. cbn iota.
    f_equal. rewrite <- Hlen. symmetry. now apply np_all_replicate. }
  destruct (selected_elements_loop_spec elems mask 0 [] ltac:(cbn; lia))
    as (sel & Hsel & Hspec).
  unfold enumerate. rewrite Hsel. cbn [mbind result_bind].
  assert (forall e, e ∈ sel -> is_label e) as Hsel_labels.
  { intros e He. apply Hspec in He as [He|(j & _ & He)]; [inversion He|].
    rewrite Forall_forall in Hlabels. apply Hlabels.
    now apply list_elem_of_lookup_2 in He. }
  destruct (bool_decide (mask = map (fun e => str_in e sel) elems)) eqn:Heq.
  - apply bool_decide_eq_true in Heq.
    eexists. split; [reflexivity|].
    pose proof (sorted_str_perm sel) as Hperm.
    assert (Forall is_label (sorted_str sel)) as Hts.
    { rewrite Hperm. apply Forall_forall. exact Hsel_labels. }
    unfold parse_atom_selection.
    assert (Text.lower (join_space (sorted_str sel)) <> "all"%string) as Hlow.
    { apply lower_join_not_all. eapply Forall_impl; [exact Hts|].
      now intros t (_ & _ & Ht). }
    apply String.eqb_neq in Hlow. rewrite Hlow.
    rewrite split_join by (eapply Forall_impl; [exact Hts|]; now intros t [Ht _]).
    destruct (sorted_str sel) as [|t ts] eqn:Hsorted.
    + cbn. apply Permutation_nil_l in Hperm as <-. rewrite Heq.
      f_equal. clear. induction elems as [|e elems IH]; cbn; [reflexivity|].
      now rewrite IH.
    + apply Forall_cons in Hts as [(_ & Ht & _) _]. cbn [forallb].
      rewrite Ht. cbn [andb]. rewrite Heq. f_equal.
      apply map_ext. intros e. apply str_in_same. intros x.
      now rewrite Hperm.
  - eexists. split; [reflexivity|].
    now apply index_list_reads_back.
Qed.

End Repro.

Section ReproWitness.
Local Open Scope string_scope.

Lemma atoms_str_reproduces_mask_witness :
  exists s,
    atoms_str [true; false; false; true] ["Fe"; "Fe"; "O"; "O"] = Ok s
    /\ parse_atom_selection s ["Fe"; "Fe"; "O"; "O"]
       = Ok [true; false; false; true].
Proof.
  refine (atoms_str_reproduces_mask [true; false; false; true]
            ["Fe"; "Fe"; "O"; "O"] eq_refl _).
  repeat constructor; discriminate.
Defined.

End ReproWitness.

(* ================================================================== *)
(** * The atom selection typed at the prompt *)

(** Without an ATOMS argument [main] asks for the atoms and reads the
    answer itself, not through [parse_atom_selection]. *)

(** [s.strip()] *)
Fixpoint lstrip (s : string) : string :=
  match s with
  | EmptyString => EmptyString
  | String c s' => if Text.isspace c then lstrip s' else s
  end.

Fixpoint rstrip (s : string) : string :=
  match s with
  | EmptyString => EmptyString
  | String c s' =>
      match rstrip s' with
      | EmptyString => if Text.isspace c then EmptyString
                       else String c EmptyString
      | r => String c r
      end
  end.

Definition strip (s : string) : string := rstrip (lstrip s).

(** The digits of a string of decimal digits with single underscores
    between them; [prev_digit] tells whether the character before was a
    digit. *)
Fixpoint digits_of (prev_digit : bool) (s : string) : option string :=
  match s with
  | EmptyString => if prev_digit then Some EmptyString else None
  | String c s' =>
      if Text.isdecimal_char c then String c <$> digits_of true s'
      else if Ascii.eqb c "_" then
        (if prev_digit then digits_of false s' else None)
      else None
  end.

(** [int(x)] for any string [x] of code points below 256: white space
    around, a sign, decimal digits with single underscores between them.
    The limit that recent interpreters put on the number of digits is
    not part of the model. *)
Definition int_literal (x : string) : result Z :=
  let t := strip x in
  let '(negative, body) :=
    match t with
    | String "+" b => (false, b)
    | String "-" b => (true, b)
    | _ => (false, t)
    end in
  match digits_of false body with
  | Some ds =>
      let v := Text.decimal_value 0 ds in
      Ok (if negative then - v else v)
  | None => Raise ValueError
  end.

(** The mask for the answer [line] to the prompt
    [Atoms of interest (symbols OR indices; blank = all)]. *)
Definition interactive_selection (line : string) (elems : list string)
  : result (list bool) :=
  let natoms := length elems in
  let sel := Text.split line in
  match sel with
  | [] => Ok (replicate natoms true)
  | first :: _ =>
      if Text.isdigit first then
        idx ← traverse (fun x => n ← int_literal x; Ok (n - 1)) sel;
        np_set_true (replicate natoms false) idx
      else
        let keep := sel in
        Ok (map (fun e => str_in e keep) elems)
  end.

Section InteractiveExamples.
Local Open Scope string_scope.

Example int_literal_examples :
  map int_literal [" 12 "; "-3"; "+007"; "1_000"; "1__0"; "_1"; "1_";
                   "+ 1"; "Fe"; ""; "-"; "0x10"; "1.0"]
  = [Ok 12; Ok (-3); Ok 7; Ok 1000; Raise ValueError; Raise ValueError;
     Raise ValueError; Raise ValueError; Raise ValueError;
     Raise ValueError; Raise ValueError; Raise ValueError;
     Raise ValueError].
Proof. reflexivity. Qed.

Example interactive_examples :
  map (fun line => interactive_selection line ["Fe"; "Ni"; "Fe"])
      [""; "1 3"; "Ni"; "Fe 1"; "1 Fe"; "1 -1"; "all"]
  = [Ok [true; true; true]; Ok [true; false; true];
     Ok [false; true; false]; Ok [true; false; true];
     Raise ValueError; Ok [true; true; false]; Ok [false; false; false]].
Proof. reflexivity. Qed.

End InteractiveExamples.

Section Interactive.
Local Open Scope nat_scope.

Implicit Types (s x line : string) (elems : list string).













(** X13. An answer that starts with a digit string and holds a token
    that is no integer makes the prompt path raise ValueError, while
    [parse_atom_selection] reads the same text as element labels. *)
Theorem digit_first_mixed_answer line elems (first : string)
    (rest : list string) :
  Text.split line = first :: rest ->
  Text.isdigit first = true ->
  Exists (fun x => int_literal x = Raise ValueError) rest ->
  interactive_selection line elems = Raise ValueError
  /\ (Text.lower line <> "all"%string ->
      forallb Text.isdigit rest = false ->
      parse_atom_selection line elems
      = Ok (map (fun e => str_in e (first :: rest)) elems)).
Proof.
  intros Hsplit Hfirst Hex. split.
  - unfold interactive_selection. rewrite Hsplit, Hfirst.
    rewrite (traverse_Raise _ _ ValueError); [reflexivity| |].
    + right. eapply Exists_impl; [exact Hex|]. intros x Hx. cbn.
      now rewrite Hx.
    + apply Forall_forall. intros x _ e'. unfold int_literal.
      destruct (match strip x with
                | String "+" b => (false, b)
                | String "-" b => (true, b)
                | _ => (false, strip x)
                end) as [negative body].
      destruct (digits_of false body); cbn; congruence.
  - intros Hall Hrest. unfold parse_atom_selection.
    apply String.eqb_neq in Hall. rewrite Hall, Hsplit. cbn [forallb].
    now rewrite Hfirst, Hrest.
Qed.

Lemma digit_first_mixed_answer_witness :
  interactive_selection "1 Fe" ["Fe"; "Ni"; "Fe"]%string = Raise ValueError.
Proof.
  refine (proj1 (digit_first_mixed_answer "1 Fe" ["Fe"; "Ni"; "Fe"]%string
                   "1"%string ["Fe"%string] eq_refl eq_refl _)).
  left. reflexivity.
Defined.

Lemma lower_char_al (c : ascii) :
  Text.lower_char c = "a"%char \/ Text.lower_char c = "l"%char ->
  Text.isspace c = false /\ Text.isdigit_char c = false.
Proof.
  destruct c as [[] [] [] [] [] [] [] []]; vm_compute;
    intros [Hc|Hc]; try discriminate; auto.
Qed.

(** The word all, in any case, is one token and no digit string. *)
Lemma all_is_one_token line :
  Text.lower line = "all"%string ->
  Text.split line = [line] /\ Text.isdigit line = false.
Proof.
  intros Hall.
  destruct line as [|c1 [|c2 [|c3 [|c4 r]]]]; cbn in Hall; try discriminate.
  injection Hall as H1 H2 H3.
  destruct (lower_char_al c1 (or_introl H1)) as [Hs1 Hd1].
  destruct (lower_char_al c2 (or_intror H2)) as [Hs2 _].
  destruct (lower_char_al c3 (or_intror H3)) as [Hs3 _].
  split.
  - apply (split_join [String c1 (String c2 (String c3 EmptyString))]).
    constructor; [|constructor]. split; [discriminate|].
    cbn. now rewrite Hs1, Hs2, Hs3.
  - cbn. now rewrite Hd1.
Qed.

(** X14. Where the prompt and the ATOMS argument differ on purpose: a
    blank answer selects every atom at the prompt and no atom as an
    argument; the word all selects every atom as an argument and is an
    element label at the prompt. *)
Theorem prompt_blank_and_all line elems :
  (Text.split line = [] ->
   interactive_selection line elems = Ok (replicate (length elems) true)
   /\ parse_atom_selection line elems
      = Ok (replicate (length elems) false))
  /\ (Text.lower line = "all"%string ->
      interactive_selection line elems
      = Ok (map (fun e => str_in e [line]) elems)
      /\ parse_atom_selection line elems
         = Ok (replicate (length elems) true)).
Proof.
  split.
  - intros Hblank. split.
    + unfold interactive_selection. now rewrite Hblank.
    + unfold parse_atom_selection.
      destruct (String.eqb_spec (Text.lower line) "all") as [Hall|_].
      * apply all_is_one_token in Hall as [Hsplit _]. congruence.
      * now rewrite Hblank.
  - intros Hall. destruct (all_is_one_token line Hall) as [Hsplit Hdigit].
    split.
    + unfold interactive_selection. now rewrite Hsplit, Hdigit.
    + unfold parse_atom_selection. now rewrite Hall.
Qed.

(** ** Indices that count from the end *)

Lemma np_index_in_range (n : nat) (v : Z) :
  (- Z.of_nat n <= v < Z.of_nat n)%Z ->
  exists j, np_index n v = Ok j /\ j < n
            /\ (Z.of_nat j = v \/ (Z.of_nat j - Z.of_nat n)%Z = v).
Proof.
  intros Hv. unfold np_index. case_cmp; cbn; try lia.
  - exists (Z.to_nat v). split; [reflexivity|]. lia.
  - exists (Z.to_nat (v + Z.of_nat n)). split; [reflexivity|]. lia.
Qed.

(** [mask[idx] = True] on a fresh mask of [n] entries, for indices
    between [-n] and [n-1]: position [i] is set for the index [i] and
    for the index [i - n]. *)
Lemma np_set_true_spec (n : nat) (idx : list Z) :
  Forall (fun v => (- Z.of_nat n <= v < Z.of_nat n)%Z) idx ->
  exists mask,
    np_set_true (replicate n false) idx = Ok mask
    /\ length mask = n
    /\ forall i, mask !! i = Some true <->
         (i < n /\ (Z.of_nat i ∈ idx \/ (Z.of_nat i - Z.of_nat n)%Z ∈ idx)).
Proof.
  intros Hidx. unfold np_set_true. rewrite length_replicate.
  assert (exists js, traverse (np_index n) idx = Ok js
            /\ forall i, i ∈ js <->
                 (i < n /\ (Z.of_nat i ∈ idx
                            \/ (Z.of_nat i - Z.of_nat n)%Z ∈ idx)))
    as (js & Hjs & Hspec).
  { induction Hidx as [|v idx Hv _ (js & Hjs & Hspec)]; cbn.
    - exists []. split; [reflexivity|]. intros i.
      rewrite !elem_of_nil. tauto.
    - destruct (np_index_in_range n v Hv) as (j & Hj & Hjn & Hjv).
      rewrite Hj, Hjs. cbn. exists (j :: js). split; [reflexivity|].
      intros i. rewrite !elem_of_cons, Hspec. split.
      + intros [->|(Hi & Hin)]; [split; [exact Hjn|]|split; [exact Hi|]].
        * destruct Hjv; [left|right]; now left.
        * destruct Hin; [left|right]; now right.
      + intros (Hi & [[Hv'|Hin]|[Hv'|Hin]]).
        * left. lia.
        * right. auto.
        * left. lia.
        * right. auto. }
  rewrite Hjs. cbn. eexists. split; [reflexivity|]. split.
  - now rewrite length_set_true, length_replicate.
  - intros i. rewrite lookup_set_true, length_replicate, Hspec. split.
    + intros [[_ Hi]|Hm]; [exact Hi|]. apply lookup_replicate in Hm as [[=] _].
    + intros [Hi Hin]. left. auto.
Qed.

(** X15. At the prompt an index list may count from the end: when the
    first token is a digit string and every token an integer between
    [1 - N] and [N], atom [i] (counted from 1) is selected exactly when
    the list holds [i] or [i - N]; so 0 stands for the last atom and -1
    for the one before it. *)
Theorem prompt_indices_count_from_end line elems (first : string)
    (rest : list string) (values : list Z) :
  Text.split line = first :: rest ->
  Text.isdigit first = true ->
  Forall2 (fun x v => int_literal x = Ok v) (first :: rest) values ->
  Forall (fun v => (1 - Z.of_nat (length elems) <= v
                    <= Z.of_nat (length elems))%Z) values ->
  exists mask,
    interactive_selection line elems = Ok mask
    /\ length mask = length elems
    /\ forall i, mask !! i = Some true <->
         (i < length elems
          /\ (Z.of_nat (S i) ∈ values
              \/ (Z.of_nat (S i) - Z.of_nat (length elems))%Z ∈ values)).
Proof.
  intros Hsplit Hfirst Hvalues Hrange.
  unfold interactive_selection. rewrite Hsplit, Hfirst.
  assert (traverse (fun x => n ← int_literal x; Ok (n - 1)%Z) (first :: rest)
          = Ok (map (fun v => (v - 1)%Z) values)) as ->.
  { apply traverse_Ok. clear Hrange Hsplit Hfirst.
    induction Hvalues as [|x v xs vs Hx _ IH]; cbn; constructor;
      [now rewrite Hx|exact IH]. }
  cbn [mbind result_bind].
  destruct (np_set_true_spec (length elems) (map (fun v => (v - 1)%Z) values))
    as (mask & Hm & Hlen & Hspec).
  { apply Forall_forall. intros w Hw.
    apply list_elem_of_In, in_map_iff in Hw as (v & <- & Hv).
    rewrite Forall_forall in Hrange.
    specialize (Hrange v (proj2 (list_elem_of_In _ _) Hv)). cbn in Hrange. lia. }
  exists mask. split; [exact Hm|]. split; [exact Hlen|].
  intros i. rewrite Hspec.
  assert (forall w : Z, w ∈ map (fun v => (v - 1)%Z) values <->
                        (w + 1)%Z ∈ values) as Hshift.
  { intros w. rewrite list_elem_of_In, in_map_iff. split.
    - intros (v & <- & Hv). apply list_elem_of_In.
      now replace (v - 1 + 1)%Z with v by lia.
    - intros Hw. exists (w + 1)%Z. split; [lia|now apply list_elem_of_In]. }
  rewrite !Hshift.
  replace (Z.of_nat i + 1)%Z with (Z.of_nat (S i)) by lia.
  replace (Z.of_nat i - Z.of_nat (length elems) + 1)%Z
    with (Z.of_nat (S i) - Z.of_nat (length elems))%Z by lia.
  reflexivity.
Qed.

Lemma prompt_indices_count_from_end_witness :
  exists mask,
    interactive_selection "1 0 -1" ["Fe"; "Ni"; "O"; "Fe"]%string = Ok mask
    /\ length mask = 4.
Proof.
  destruct (prompt_indices_count_from_end "1 0 -1"
              ["Fe"; "Ni"; "O"; "Fe"]%string "1"%string ["0"; "-1"]%string
              [1; 0; -1]%Z eq_refl eq_refl)
    as (mask & Hm & Hlen & _).
  - repeat constructor.
  - repeat constructor; cbn; lia.
  - exists mask. split; [exact Hm|exact Hlen].
Defined.

End Interactive.

(* ================================================================== *)
(** * The direction argument: [parse_vector] *)

(** The three messages of the ValueError that [parse_vector] raises. *)
Inductive vector_error : Type :=
  | NotBracketed   (* Vector must be in format [X,Y,Z] *)
  | NotNumbers     (* Vector components must be numbers *)
  | NotThree.      (* Vector must have exactly 3 components *)

Inductive parsed (A : Type) : Type :=
  | Parsed (a : A)
  | Refused (e : vector_error).
Arguments Parsed {A} a.
Arguments Refused {A} e.

(** [s.startswith(c)] and [s.endswith(c)] for a one-character [c]. *)
Definition startswith (c : ascii) (s : string) : bool :=
  match s with
  | String c' _ => Ascii.eqb c' c
  | EmptyString => false
  end.

Fixpoint endswith (c : ascii) (s : string) : bool :=
  match s with
  | EmptyString => false
  | String c' EmptyString => Ascii.eqb c' c
  | String _ s' => endswith c s'
  end.

(** [s[:-1]] and [s[1:-1]] *)
Fixpoint drop_last (s : string) : string :=
  match s with
  | EmptyString => EmptyString
  | String _ EmptyString => EmptyString
  | String c s' => String c (drop_last s')
  end.

Definition inner (s : string) : string :=
  match s with
  | EmptyString => EmptyString
  | String _ s' => drop_last s'
  end.

(** [s.split(sep)] for a one-character [sep]; [cur] is the piece being
    read. *)
Fixpoint split_on_from (sep : ascii) (cur : string) (s : string)
  : list string :=
  match s with
  | EmptyString => [cur]
  | String c s' =>
      if Ascii.eqb c sep then cur :: split_on_from sep EmptyString s'
      else split_on_from sep (cur ++ String c EmptyString) s'
  end.

Definition split_on (sep : ascii) (s : string) : list string :=
  split_on_from sep EmptyString s.

(** [sep.join(l)] for a one-character [sep]. *)
Fixpoint join_on (sep : ascii) (l : list string) : string :=
  match l with
  | [] => EmptyString
  | [x] => x
  | x :: rest => x ++ String sep (join_on sep rest)
  end.

Section ParseVector.
Context {F : Type}.

(** [float(x)] on strings: the number, or nothing where Python raises
    its ValueError (could not convert string to float). [parse_vector]
    is read for any such function. *)
Variable float_of : string -> option F.

(** [[float(x.strip()) for x in pieces]]: the first piece that is no
    number decides. *)
Fixpoint floats_of (pieces : list string) : option (list F) :=
  match pieces with
  | [] => Some []
  | x :: rest =>
      match float_of (strip x) with
      | Some v => cons v <$> floats_of rest
      | None => None
      end
  end.

Definition parse_vector (vector_str : string) : parsed (F * F * F) :=
  let vector_str := strip vector_str in
  if negb (startswith "[" vector_str && endswith "]" vector_str)
  then Refused NotBracketed
  else
    let content := inner vector_str in
    match floats_of (split_on "," content) with
    | None => Refused NotNumbers
    | Some [x; y; z] => Parsed (x, y, z)
    | Some _ => Refused NotThree
    end.

(** [get_orthogonal_vector] on the lines that [input] will return: it
    asks again after a blank line and after a line that [parse_vector]
    refuses. The result is the vector and the lines not read, or nothing
    when the input ends first ([input] raises EOFError). *)
Fixpoint get_orthogonal_vector (inputs : list string)
  : option (F * F * F * list string) :=
  match inputs with
  | [] => None
  | line :: rest =>
      let vector_str := strip line in
      match vector_str with
      | EmptyString => get_orthogonal_vector rest
      | _ =>
          match parse_vector vector_str with
          | Parsed v => Some (v, rest)
          | Refused _ => get_orthogonal_vector rest
          end
      end
  end.

End ParseVector.

Section Separators.
Local Open Scope nat_scope.

Implicit Types (s t u cur content : string) (c sep : ascii).
Implicit Types (pieces : list string).

(** No character of [t] is [sep]. *)
Definition sep_free sep t : Prop :=
  Text.all_chars (fun c => negb (Ascii.eqb c sep)) t = true.

(** ** [strip] *)

Lemma rstrip_first c s :
  Text.isspace c = false -> exists r, rstrip (String c s) = String c r.
Proof.
  intros Hc. cbn. rewrite Hc. destruct (rstrip s); eauto.
Qed.

Lemma rstrip_idem s : rstrip (rstrip s) = rstrip s.
Proof.
  induction s as [|c s IH]; [reflexivity|]. cbn.
  destruct (rstrip s) as [|c' r] eqn:Hr.
  - destruct (Text.isspace c) eqn:Hc; [reflexivity|]. cbn. now rewrite Hc.
  - cbn [rstrip]. cbn [rstrip] in IH. now rewrite IH.
Qed.

Lemma lstrip_first s :
  lstrip s = EmptyString
  \/ exists c r, lstrip s = String c r /\ Text.isspace c = false.
Proof.
  induction s as [|c s IH]; cbn; [now left|].
  destruct (Text.isspace c) eqn:Hc; [exact IH|]. right. eauto.
Qed.

Lemma strip_idem s : strip (strip s) = strip s.
Proof.
  unfold strip. destruct (lstrip_first s) as [->|(c & r & -> & Hc)].
  - reflexivity.
  - destruct (rstrip_first c r Hc) as [r' Hr']. rewrite Hr'.
    cbn [lstrip]. rewrite Hc, <- Hr'. apply rstrip_idem.
Qed.

(** ** Brackets *)

Lemma endswith_drop_last c u :
  endswith c u = true -> u = (drop_last u ++ String c EmptyString)%string.
Proof.
  induction u as [|c' u IH]; [discriminate|]. cbn.
  destruct u as [|c'' u].
  - intros Hc. apply Ascii.eqb_eq in Hc. now subst.
  - intros Hu. cbn [append]. now rewrite <- (IH Hu).
Qed.

Lemma endswith_app c u :
  endswith c (u ++ String c EmptyString) = true.
Proof.
  induction u as [|c' u IH]; cbn; [apply Ascii.eqb_refl|].
  destruct (u ++ String c EmptyString)%string eqn:Hu; [|exact IH].
  now destruct u.
Qed.

Lemma drop_last_app c u :
  drop_last (u ++ String c EmptyString) = u.
Proof.
  induction u as [|c' u IH]; cbn; [reflexivity|].
  destruct (u ++ String c EmptyString)%string eqn:Hu.
  - now destruct u.
  - now rewrite IH.
Qed.

(** A string starts with [[] and ends with []] exactly when it is its
    [inner] part between these two. *)
Lemma bracketed_iff t :
  startswith "[" t && endswith "]" t = true <->
  t = String "[" (inner t ++ String "]" EmptyString).
Proof.
  split.
  - intros [Hs He]%andb_prop. destruct t as [|c t]; [discriminate|].
    cbn in Hs. apply Ascii.eqb_eq in Hs as ->. cbn [inner]. f_equal.
    destruct t as [|c t]; [discriminate|].
    now apply endswith_drop_last.
  - intros Ht. rewrite Ht. generalize (inner t). intros m.
    cbn [startswith]. rewrite Ascii.eqb_refl. cbn [andb].
    change (String "[" (m ++ String "]" EmptyString))
      with (String "[" m ++ String "]" EmptyString)%string.
    apply endswith_app.
Qed.

(** ** [split] and [join] on a separator *)

Lemma split_on_from_cons sep cur s :
  exists x rest, split_on_from sep cur s = x :: rest.
Proof.
  revert cur. induction s as [|c s IH]; intros cur; cbn; [eauto|].
  destruct (Ascii.eqb c sep); [eauto|apply IH].
Qed.

(** Joining what [split] yields gives the string back. *)
Lemma join_split_from sep cur s :
  join_on sep (split_on_from sep cur s) = (cur ++ s)%string.
Proof.
  revert cur. induction s as [|c s IH]; intros cur; cbn.
  - now rewrite str_app_nil_r.
  - destruct (Ascii.eqb_spec c sep) as [->|_].
    + destruct (split_on_from_cons sep EmptyString s) as (x & rest & Hx).
      rewrite Hx.
      change (join_on sep (cur :: x :: rest))
        with (cur ++ String sep (join_on sep (x :: rest)))%string.
      now rewrite <- Hx, IH.
    + rewrite IH, str_app_assoc. reflexivity.
Qed.

Lemma sep_free_app sep t u :
  sep_free sep (t ++ u) <-> sep_free sep t /\ sep_free sep u.
Proof.
  unfold sep_free. induction t as [|c t IH]; cbn.
  - tauto.
  - rewrite !andb_true_iff, IH. tauto.
Qed.

(** The pieces that [split] yields hold no separator. *)
Lemma split_from_sep_free sep cur s :
  sep_free sep cur -> Forall (sep_free sep) (split_on_from sep cur s).
Proof.
  revert cur. induction s as [|c s IH]; intros cur Hcur; cbn.
  - now constructor.
  - destruct (Ascii.eqb c sep) eqn:Hc.
    + constructor; [exact Hcur|]. now apply IH.
    + apply IH, sep_free_app. split; [exact Hcur|].
      unfold sep_free. cbn. now rewrite Hc.
Qed.

Lemma split_on_from_piece sep cur t s :
  sep_free sep t ->
  split_on_from sep cur (t ++ s) = split_on_from sep (cur ++ t) s.
Proof.
  revert cur. induction t as [|c t IH]; intros cur Ht; cbn.
  - now rewrite str_app_nil_r.
  - unfold sep_free in Ht. cbn in Ht. apply andb_prop in Ht as [Hc Ht].
    apply negb_true_iff in Hc. rewrite Hc, (IH _ Ht), str_app_assoc.
    reflexivity.
Qed.

(** [split] undoes [join] on pieces that hold no separator. *)
Lemma split_join_on sep pieces :
  pieces <> [] -> Forall (sep_free sep) pieces ->
  split_on sep (join_on sep pieces) = pieces.
Proof.
  intros Hne Hfree. unfold split_on.
  induction Hfree as [|t pieces Ht Hfree IH]; [now contradiction Hne|].
  destruct pieces as [|t' pieces].
  - cbn [join_on]. rewrite <- (str_app_nil_r t) at 1.
    rewrite (split_on_from_piece _ _ _ _ Ht). reflexivity.
  - change (join_on sep (t :: t' :: pieces))
      with (t ++ String sep (join_on sep (t' :: pieces)))%string.
    rewrite (split_on_from_piece _ _ _ _ Ht). cbn.
    rewrite Ascii.eqb_refl. f_equal. now apply IH.
Qed.

End Separators.

Section Components.
Context {F : Type} (float_of : string -> option F).

Implicit Types (pieces : list string).

Lemma floats_of_Some pieces (vs : list F) :
  floats_of float_of pieces = Some vs <->
  Forall2 (fun x v => float_of (strip x) = Some v) pieces vs.
Proof.
  revert vs. induction pieces as [|x pieces IH]; intros vs; cbn.
  - split.
    + intros [= <-]. constructor.
    + intros Hf. apply Forall2_nil_inv_l in Hf. now subst.
  - destruct (float_of (strip x)) as [v|] eqn:Hx.
    + destruct (floats_of float_of pieces) as [vs'|] eqn:Hrest; cbn.
      * split.
        -- intros [= <-]. constructor; [exact Hx|]. now apply IH.
        -- intros Hf.
           apply Forall2_cons_inv_l in Hf as (v' & vs'' & Hv & Hvs & ->).
           apply IH in Hvs. congruence.
      * split; [discriminate|]. intros Hf.
        apply Forall2_cons_inv_l in Hf as (v' & vs'' & Hv & Hvs & ->).
        apply IH in Hvs. discriminate.
    + split; [discriminate|]. intros Hf.
      apply Forall2_cons_inv_l in Hf as (v' & vs'' & Hv & Hvs & ->).
      congruence.
Qed.

Lemma floats_of_None pieces :
  floats_of float_of pieces = None <->
  Exists (fun x => float_of (strip x) = None) pieces.
Proof.
  induction pieces as [|x pieces IH]; cbn.
  - split; [discriminate|]. intros Hex. inversion Hex.
  - rewrite Exists_cons. destruct (float_of (strip x)) as [v|] eqn:Hx.
    + destruct (floats_of float_of pieces) as [vs'|]; cbn.
      * split; [discriminate|]. intros [Hx'|Hex]; [discriminate|].
        now apply IH in Hex.
      * split; [|reflexivity]. intros _. right. now apply IH.
    + split; [auto|reflexivity].
Qed.

End Components.

Section ParseVectorClaims.
Context {F : Type} (float_of : string -> option F).
Local Open Scope nat_scope.

Implicit Types (s t line : string) (v : F * F * F).

(** X16. [parse_vector] accepts exactly the texts that, white space
    around them removed, are an opening bracket, three pieces without a
    comma separated by two commas, and a closing bracket, each piece
    (white space around it removed) a number for [float]; the result
    holds the three numbers in order. *)
Theorem parse_vector_accepts s (x y z : F) :
  parse_vector float_of s = Parsed (x, y, z) <->
  exists a b c,
    strip s
    = String "[" (a ++ String "," (b ++ String "," c)
                  ++ String "]" EmptyString)
    /\ sep_free "," a /\ sep_free "," b /\ sep_free "," c
    /\ float_of (strip a) = Some x
    /\ float_of (strip b) = Some y
    /\ float_of (strip c) = Some z.
Proof.
  unfold parse_vector. split.
  - destruct (startswith "[" (strip s) && endswith "]" (strip s)) eqn:Hb;
      [|discriminate]. cbn [negb].
    destruct (floats_of float_of (split_on "," (inner (strip s))))
      as [vs|] eqn:Hf; [|discriminate].
    destruct vs as [|x' [|y' [|z' [|w vs]]]]; try discriminate.
    intros [= -> -> ->].
    apply floats_of_Some in Hf.
    pose proof (join_split_from ","%char EmptyString (inner (strip s)))
      as Hjoin.
    pose proof (split_from_sep_free ","%char EmptyString (inner (strip s))
                  eq_refl) as Hfree.
    fold (split_on "," (inner (strip s))) in Hjoin, Hfree.
    destruct (split_on "," (inner (strip s))) as [|a [|b [|c [|d pieces]]]];
      try (inversion Hf; fail);
      try (inversion Hf as [|? ? ? ? _ Hf1]; inversion Hf1; fail);
      try (inversion Hf as [|? ? ? ? _ Hf1];
           inversion Hf1 as [|? ? ? ? _ Hf2]; inversion Hf2; fail);
      try (inversion Hf as [|? ? ? ? _ Hf1];
           inversion Hf1 as [|? ? ? ? _ Hf2];
           inversion Hf2 as [|? ? ? ? _ Hf3]; inversion Hf3; fail).
    apply Forall2_cons_1 in Hf as [Ha Hf].
    apply Forall2_cons_1 in Hf as [Hb' Hf].
    apply Forall2_cons_1 in Hf as [Hc _].
    apply Forall_cons in Hfree as [Hfa Hfree].
    apply Forall_cons in Hfree as [Hfb Hfree].
    apply Forall_cons in Hfree as [Hfc _].
    exists a, b, c. split; [|auto 10].
    apply bracketed_iff in Hb. rewrite Hb at 1. f_equal.
    cbn in Hjoin. rewrite <- Hjoin. apply str_app_assoc.
  - intros (a & b & c & Hs & Hfa & Hfb & Hfc & Ha & Hb & Hc).
    assert (inner (strip s) = (a ++ String "," (b ++ String "," c))%string)
      as Hinner.
    { rewrite Hs. cbn [inner]. rewrite <- str_app_assoc.
      apply drop_last_app. }
    assert (startswith "[" (strip s) && endswith "]" (strip s) = true) as ->.
    { apply bracketed_iff. now rewrite Hinner, str_app_assoc. }
    cbn [negb]. rewrite Hinner.
    change (a ++ String "," (b ++ String "," c))%string
      with (join_on "," [a; b; c]).
    rewrite split_join_on by (try discriminate; repeat constructor; assumption).
    cbn. now rewrite Ha, Hb, Hc.
Qed.

(** X17. The three refusals of [parse_vector], in the order in which it
    decides them: the brackets first, then the numbers, and only then
    the count; a text with a piece that is no number is refused for the
    numbers, however many pieces it has. *)
Theorem parse_vector_refusals s :
  let t := strip s in
  let pieces := split_on "," (inner t) in
  let bracketed := startswith "[" t && endswith "]" t in
  (parse_vector float_of s = Refused NotBracketed <-> bracketed = false)
  /\ (parse_vector float_of s = Refused NotNumbers <->
      bracketed = true
      /\ Exists (fun x => float_of (strip x) = None) pieces)
  /\ (parse_vector float_of s = Refused NotThree <->
      bracketed = true
      /\ Forall (fun x => float_of (strip x) <> None) pieces
      /\ length pieces <> 3).
Proof.
  intros t pieces bracketed. unfold parse_vector.
  fold t. fold bracketed. fold pieces.
  destruct bracketed; cbn [negb].
  - destruct (floats_of float_of pieces) as [vs|] eqn:Hf.
    + pose proof Hf as Hsome. apply floats_of_Some in Hsome.
      pose proof (Forall2_length _ _ _ Hsome) as Hlen.
      assert (Forall (fun x => float_of (strip x) <> None) pieces) as Hall.
      { clear Hlen Hf. induction Hsome as [|x v xs vs' Hx _ IH];
          constructor; [congruence|exact IH]. }
      assert (~ Exists (fun x => float_of (strip x) = None) pieces) as Hno.
      { intros Hex. apply floats_of_None in Hex. congruence. }
      destruct vs as [|? [|? [|? [|? ?]]]]; cbn in Hlen;
        (split; [split; intros; discriminate|]);
        (split; [split; [intros; discriminate
                        |intros [_ Hex]; now destruct Hno]|]);
        (split; [intros;
                 first [discriminate
                       |split; [reflexivity|split; [exact Hall|lia]]]
                |intros (_ & _ & Hn); try reflexivity; lia]).
    + apply floats_of_None in Hf as Hex.
      split; [split; discriminate|]. split; [tauto|].
      split; [discriminate|]. intros (_ & Hall & _).
      rewrite Forall_forall in Hall. apply Exists_exists in Hex as (x & Hx & Hn).
      now destruct (Hall x Hx).
  - split; [tauto|]. split; (split; [discriminate|now intros [? _]]).
Qed.

Lemma parse_vector_strip s :
  parse_vector float_of (strip s) = parse_vector float_of s.
Proof. unfold parse_vector. now rewrite strip_idem. Qed.

Lemma parse_vector_blank s :
  strip s = EmptyString -> parse_vector float_of s = Refused NotBracketed.
Proof. intros Hs. unfold parse_vector. now rewrite Hs. Qed.

(** X18. [get_orthogonal_vector] returns what [parse_vector] makes of
    the first line that it accepts, and leaves the lines after it
    unread; the lines before it, blank or refused, are asked again. When
    [parse_vector] accepts no line the input runs out. *)
Theorem get_orthogonal_vector_first_accepted (inputs : list string) :
  (forall v rest,
     get_orthogonal_vector float_of inputs = Some (v, rest) <->
     exists before line,
       inputs = before ++ line :: rest
       /\ parse_vector float_of line = Parsed v
       /\ Forall (fun l => exists e, parse_vector float_of l = Refused e)
            before)
  /\ (get_orthogonal_vector float_of inputs = None <->
      Forall (fun l => exists e, parse_vector float_of l = Refused e)
        inputs).
Proof.
  induction inputs as [|line inputs [IHsome IHnone]].
  - split.
    + intros v rest. split; [discriminate|].
      intros (before & l & Heq & _). now destruct before.
    + split; [constructor|reflexivity].
  - assert (get_orthogonal_vector float_of (line :: inputs)
            = match parse_vector float_of line with
              | Parsed v => Some (v, inputs)
              | Refused _ => get_orthogonal_vector float_of inputs
              end) as Hstep.
    { cbn [get_orthogonal_vector]. rewrite parse_vector_strip.
      destruct (strip line) eqn:Hs; [|reflexivity].
      now rewrite (parse_vector_blank line Hs). }
    rewrite Hstep. destruct (parse_vector float_of line) as [w|e] eqn:Hline.
    + split.
      * intros v rest. split.
        -- intros [= -> ->]. exists [], line. auto.
        -- intros ([|l before] & l' & Heq & Hl' & Hbefore).
           ++ injection Heq as -> ->. congruence.
           ++ injection Heq as -> _.
              apply Forall_cons in Hbefore as [[e He] _]. congruence.
      * split; [discriminate|]. intros Hall.
        apply Forall_cons in Hall as [[e He] _]. congruence.
    + split.
      * intros v rest. rewrite IHsome. split.
        -- intros (before & l & -> & Hl & Hbefore).
           exists (line :: before), l. split; [reflexivity|].
           split; [exact Hl|]. constructor; eauto.
        -- intros ([|l0 before] & l & Heq & Hl & Hbefore).
           ++ injection Heq as -> _. congruence.
           ++ injection Heq as -> ->.
              apply Forall_cons in Hbefore as [_ Hbefore]. eauto.
      * rewrite IHnone. split.
        -- intros Hall. constructor; eauto.
        -- intros Hall. now apply Forall_cons in Hall as [_ Hall].
Qed.

End ParseVectorClaims.

(* ================================================================== *)
(** * The command line *)

(** What [main] reports before [sys.exit(1)] while it reads its
    arguments. *)
Inductive usage_error : Type :=
  | PoscarNotFound                    (* POSCAR file ... not found *)
  | VectorRefused (e : vector_error)  (* Error parsing orthogonal vector *)
  | ToleranceNotNumber                (* Tolerance must be a number *)
  | LayersNotInteger                  (* Layers must be an integer *)
  | MagnitudeNotNumber                (* Magnitude must be a number *)
  | TooManyArguments.                 (* Too many arguments provided. *)

(** The six variables that [main] fills from [sys.argv[1:]]; [None]
    where the argument is not given and will be asked for. *)
Module Args.
Record t (F : Type) : Type := make {
  poscar : option string;
  n_vec : option (F * F * F);
  atoms : option string;
  tol : option F;
  L : option Z;
  M : option F
}.
Arguments make {F}.
Arguments poscar {F}.
Arguments n_vec {F}.
Arguments atoms {F}.
Arguments tol {F}.
Arguments L {F}.
Arguments M {F}.
End Args.

(** [int(x)] where its ValueError is caught. *)
Definition int_of (x : string) : option Z :=
  match int_literal x with
  | Ok v => Some v
  | Raise _ => None
  end.



Section CommandLine.
Context {F : Type}.
Local Open Scope nat_scope.

Variable float_of : string -> option F.

(** [Path(poscar).exists()] *)
Variable path_exists : string -> bool.

(** An argument that may be missing: [read] when it is given. *)
Definition given {A : Type} (arg : option string)
    (read : string -> usage_error + A) : usage_error + option A :=
  match arg with
  | None => inr None
  | Some a =>
      match read a with
      | inl e => inl e
      | inr v => inr (Some v)
      end
  end.

Definition read_poscar_arg (a : string) : usage_error + string :=
  if negb (path_exists a) then inl PoscarNotFound else inr a.

Definition read_vector_arg (a : string) : usage_error + (F * F * F) :=
  match parse_vector float_of a with
  | Parsed v => inr v
  | Refused e => inl (VectorRefused e)
  end.

Definition read_float_arg (e : usage_error) (a : string)
  : usage_error + F :=
  match float_of a with
  | Some v => inr v
  | None => inl e
  end.

Definition read_int_arg (e : usage_error) (a : string)
  : usage_error + Z :=
  match int_of a with
  | Some v => inr v
  | None => inl e
  end.

(** The argument part of [main]: the arguments are read in order, the
    first one refused ends the run, and the count is looked at last. *)
Definition parse_arguments (args : list string)
  : usage_error + Args.t F :=
  match given (args !! 0) read_poscar_arg with
  | inl e => inl e
  | inr poscar =>
  match given (args !! 1) read_vector_arg with
  | inl e => inl e
  | inr n_vec =>
  let atoms : option string := args !! 2 in
  match given (args !! 3) (read_float_arg ToleranceNotNumber) with
  | inl e => inl e
  | inr tol =>
  match given (args !! 4) (read_int_arg LayersNotInteger) with
  | inl e => inl e
  | inr L =>
  match given (args !! 5) (read_float_arg MagnitudeNotNumber) with
  | inl e => inl e
  | inr M =>
  if 6 <? length args then inl TooManyArguments
  else inr (Args.make poscar n_vec atoms tol L M)
  end end end end end.

End CommandLine.

Section CommandLineClaims.
Context {F : Type}.
Variable float_of : string -> option F.
Variable path_exists : string -> bool.
Local Open Scope nat_scope.

Ltac read_arguments H :=
  unfold parse_arguments in *;
  cbn -[parse_vector int_of] in *;
  unfold read_poscar_arg, read_vector_arg, read_float_arg, read_int_arg
    in *;
  try congruence;
  repeat (match type of H with
          | context [path_exists ?a] => destruct (path_exists a) eqn:?
          | context [parse_vector float_of ?a] =>
              destruct (parse_vector float_of a) eqn:?
          | context [float_of ?a] => destruct (float_of a) eqn:?
          | context [int_of ?a] => destruct (int_of a) eqn:?
          end; cbn -[parse_vector int_of] in *; try congruence).

Ltac given_iff :=
  split;
  [intros [? ?]; first [discriminate|lia]
  |intros; first [lia|eexists; reflexivity]].

(** X19. The first argument that is refused decides: a run that ends on
    an argument ends in the same way whatever arguments follow it, also
    when they are too many. *)
Theorem first_refused_argument_decides (args more : list string) e :
  parse_arguments float_of path_exists args = inl e ->
  e <> TooManyArguments ->
  parse_arguments float_of path_exists (args ++ more) = inl e.
Proof.
  intros Hp He.
  destruct args as [|a0 [|a1 [|a2 [|a3 [|a4 [|a5 [|a6 rest]]]]]]];
    read_arguments Hp.
Qed.

(** X20. The count is looked at last: with more than six arguments no
    run gets past the arguments, and it ends on their number exactly
    when the first six are accepted on their own; otherwise it ends on
    the first of them that is refused. *)
Theorem too_many_arguments_reported_last (args : list string) :
  6 < length args ->
  (exists e, parse_arguments float_of path_exists args = inl e)
  /\ (parse_arguments float_of path_exists args = inl TooManyArguments
      <-> exists a,
            parse_arguments float_of path_exists (take 6 args) = inr a)
  /\ (forall e,
        parse_arguments float_of path_exists (take 6 args) = inl e ->
        parse_arguments float_of path_exists args = inl e).
Proof.
  intros Hlen.
  destruct args as [|a0 [|a1 [|a2 [|a3 [|a4 [|a5 [|a6 rest]]]]]]];
    cbn in Hlen; try lia. clear Hlen.
  destruct (parse_arguments float_of path_exists
              (a0 :: a1 :: a2 :: a3 :: a4 :: a5 :: a6 :: rest))
    as [e|a] eqn:Hp.
  - split; [eauto|]. split; [split|].
    + intros [= ->]. read_arguments Hp. eauto.
    + intros [a Ha]. read_arguments Hp.
    + intros e' He'. read_arguments Hp.
  - read_arguments Hp.
Qed.

(** X21. Arguments are positional: when the arguments are accepted
    there are at most six of them, the file exists, each variable holds
    what its argument reads as, and the variables left empty, to be
    asked for, are exactly those whose argument is not given. *)
Theorem accepted_arguments_positional (args : list string) a :
  parse_arguments float_of path_exists args = inr a ->
  length args <= 6
  /\ Args.poscar a = args !! 0
  /\ (forall p, args !! 0 = Some p -> path_exists p = true)
  /\ (forall s, args !! 1 = Some s ->
        exists v, parse_vector float_of s = Parsed v
                  /\ Args.n_vec a = Some v)
  /\ (args !! 1 = None -> Args.n_vec a = None)
  /\ Args.atoms a = args !! 2
  /\ Args.tol a = args !! 3 ≫= float_of
  /\ Args.L a = args !! 4 ≫= int_of
  /\ Args.M a = args !! 5 ≫= float_of
  /\ (is_Some (Args.tol a) <-> 3 < length args)
  /\ (is_Some (Args.L a) <-> 4 < length args)
  /\ (is_Some (Args.M a) <-> 5 < length args).
Proof.
  intros Hp.
  destruct args as [|a0 [|a1 [|a2 [|a3 [|a4 [|a5 [|a6 rest]]]]]]];
    read_arguments Hp; injection Hp as <-; cbn -[parse_vector int_of];
    repeat match goal with
           | H : negb _ = false |- _ => apply negb_false_iff in H
           end;
    (split; [lia|]); (split; [reflexivity|]);
    (split; [intros ? [= <-]; assumption || discriminate|]);
    (split; [intros ? [= <-]; eauto|]);
    (split; [intros; reflexivity || discriminate|]);
    (split; [reflexivity|]);
    (split; [reflexivity|]); (split; [reflexivity|]);
    (split; [reflexivity|]); (split; [given_iff|]);
    (split; given_iff).
Qed.

End CommandLineClaims.

Section LayersPrompt.


End LayersPrompt.

Section CommandLineExamples.
Local Open Scope string_scope.

(** A command line on a machine where every file exists and [float]
    reads every text as 1. *)
Definition every_file : string -> bool := fun _ => true.
Definition float_one : string -> option float := fun _ => Some 1%float.

Example parse_arguments_examples :
  parse_arguments float_one every_file
    ["POSCAR"; "[1,0,0]"; "Fe"; "0.02"; "-2"]
  = inr (Args.make (Some "POSCAR") (Some (1, 1, 1)%float) (Some "Fe")
           (Some 1%float) (Some (-2)%Z) None)
  /\ parse_arguments float_one every_file
       ["POSCAR"; "1,0,0"; "Fe"; "0.02"; "two"; "1"; "more"]
     = inl (VectorRefused NotBracketed)
  /\ parse_arguments float_one every_file
       ["POSCAR"; "[1,0,0]"; "Fe"; "0.02"; "two"; "1"; "more"]
     = inl LayersNotInteger
  /\ parse_arguments float_one every_file
       ["POSCAR"; "[1,0,0]"; "Fe"; "0.02"; "2"; "1"; "more"]
     = inl TooManyArguments.
Proof. repeat split. Qed.

Lemma first_refused_argument_decides_witness :
  parse_arguments float_one every_file
    (["POSCAR"; "1,0,0"] ++ ["Fe"; "0.02"; "two"; "1"; "more"])
  = inl (VectorRefused NotBracketed).
Proof.
  refine (first_refused_argument_decides float_one every_file
            ["POSCAR"; "1,0,0"] ["Fe"; "0.02"; "two"; "1"; "more"]
            (VectorRefused NotBracketed) eq_refl _).
  discriminate.
Defined.

Lemma too_many_arguments_reported_last_witness :
  exists e,
    parse_arguments float_one every_file
      ["POSCAR"; "[1,0,0]"; "Fe"; "0.02"; "2"; "1"; "more"] = inl e.
Proof.
  exact (proj1 (too_many_arguments_reported_last float_one every_file
                  ["POSCAR"; "[1,0,0]"; "Fe"; "0.02"; "2"; "1"; "more"]
                  (le_n 7))).
Defined.

Lemma accepted_arguments_positional_witness :
  (length ["POSCAR"; "[1,0,0]"; "Fe"] <= 6)%nat.
Proof.
  exact (proj1 (accepted_arguments_positional float_one every_file
                  ["POSCAR"; "[1,0,0]"; "Fe"]
                  (Args.make (Some "POSCAR") (Some (1, 1, 1)%float)
                     (Some "Fe") None None None)
                  eq_refl)).
Defined.

End CommandLineExamples.
